(** * Arabic spell checker: a shallow embedding of [src/main.py]

    The class [ArabicSpellChecker] of [src/main.py] is embedded function by
    function.  A Python [str] is the sequence of its Unicode code points, so a
    character is a code point ([N]) and a string is a [list] of them.  Python
    [int]s are [Z]; Python [float]s are the kernel's binary64 floats, which
    round exactly as CPython's do.  The vocabulary [self.word_list] is a
    Python [set]: a [gset] of words, iterated in an order the language leaves
    open, which every statement below takes as an arbitrary enumeration of the
    set.  The loading of the word list, the [__init__] of
    [src/arabic_spell_checker_fixed.py] (which differs from that of
    [src/main.py]) and the message built by [SpellCheckerApp.check_spelling]
    follow; the widgets are left out. *)

From Stdlib Require Import ZArith NArith List Bool Lia Floats Sorted.
From stdpp Require Import base option list gmap sets.

Set Warnings "-inexact-float".

Local Open Scope Z_scope.

(** ** Strings *)

Definition char := N.

(** [len(s)] *)
Definition len (s : list char) : Z := Z.of_nat (length s).

(** ** Normalizer *)

(** The character class [\u064B-\u065F]. *)
Definition is_diacritic (c : char) : bool :=
  ((0x64B <=? c) && (c <=? 0x65F))%N.

(** [re.sub] of the class [\u064B-\u065F] by the empty string. *)
Definition remove_diacritics (text : list char) : list char :=
  List.filter (fun c => negb (is_diacritic c)) text.

(** [text.replace(old, new)] for one-character [old] and [new]. *)
Definition replace (old new : char) (text : list char) : list char :=
  List.map (fun c => if (c =? old)%N then new else c) text.

Definition ALEF_MAKSURA : char := 0x649%N.
Definition YA : char := 0x64A%N.
Definition TA_MARBUTA : char := 0x629%N.
Definition HA : char := 0x647%N.
Definition ALEF_HAMZA_ABOVE : char := 0x623%N.
Definition ALEF_HAMZA_BELOW : char := 0x625%N.
Definition ALEF_MADDA : char := 0x622%N.
Definition ALEF : char := 0x627%N.

(** [normalize_text]: the five replacements, in the order of the source. *)
Definition normalize_text (text : list char) : list char :=
  let text := replace ALEF_MAKSURA YA text in
  let text := replace TA_MARBUTA HA text in
  let text := replace ALEF_HAMZA_ABOVE ALEF text in
  let text := replace ALEF_HAMZA_BELOW ALEF text in
  let text := replace ALEF_MADDA ALEF text in
  text.

(** The preprocessing of [check_text]: diacritics first, then the variants. *)
Definition preprocess (text : list char) : list char :=
  normalize_text (remove_diacritics text).

(** What the five replacements do to one character. *)
Definition norm_char (c : char) : char :=
  let c := if (c =? ALEF_MAKSURA)%N then YA else c in
  let c := if (c =? TA_MARBUTA)%N then HA else c in
  let c := if (c =? ALEF_HAMZA_ABOVE)%N then ALEF else c in
  let c := if (c =? ALEF_HAMZA_BELOW)%N then ALEF else c in
  let c := if (c =? ALEF_MADDA)%N then ALEF else c in
  c.

(** A character that the preprocessing leaves alone. *)
Definition canonical_char (c : char) : bool :=
  negb (is_diacritic c) && (norm_char c =? c)%N.

(** ** Phonetic model *)

(** [get_character_groups]: the ten groups, in the order of the source. *)
Definition get_character_groups : list (gset char) :=
  [ {[ 0x627; 0x623; 0x625; 0x622 ]};
    {[ 0x64A; 0x649 ]};
    {[ 0x647; 0x629 ]};
    {[ 0x648; 0x624 ]};
    {[ 0x643; 0x6AF ]};
    {[ 0x62A; 0x637 ]};
    {[ 0x633; 0x635 ]};
    {[ 0x62F; 0x636 ]};
    {[ 0x62D; 0x647; 0x62E ]};
    {[ 0x632; 0x630; 0x638 ]} ]%N.

(** The loop [for group in char_groups: if ... return 0.5], as the test of
    whether it returns. *)
Fixpoint same_group (char_groups : list (gset char)) (char1 char2 : char) : bool :=
  match char_groups with
  | [] => false
  | group :: rest =>
      if bool_decide (char1 ∈ group) && bool_decide (char2 ∈ group) then true
      else same_group rest char1 char2
  end.

(** [calculate_phonetic_distance].  The source returns the [int]s 0 and 1 and
    the [float] 0.5; all three are taken as floats, which is what the
    arithmetic of [custom_distance] makes of them. *)
Definition calculate_phonetic_distance (char1 char2 : char) : float :=
  if (char1 =? char2)%N then 0%float
  else if same_group get_character_groups char1 char2 then 0.5%float
  else 1%float.

(** ** Matcher *)

(** [Levenshtein.distance] of the external package: the classic edit distance,
    insertions, deletions and substitutions costing 1 each, by its defining
    recurrence. *)
Fixpoint levenshtein (s t : list char) : Z :=
  match s with
  | [] => len t
  | a :: s' =>
      (fix inner (t : list char) : Z :=
         match t with
         | [] => len s
         | b :: t' =>
             Z.min (Z.min (levenshtein s' t + 1) (inner t' + 1))
                   (levenshtein s' t' + (if (a =? b)%N then 0 else 1))
         end) t
  end.

(** An [int] used where a [float] is: exact below 2^53, and lengths are. *)
Definition of_int (z : Z) : float := PrimFloat.of_uint63 (Uint63.of_Z z).

(** [s[i]], with Python's reading of a negative index.  Every use below is in
    range, so the default is never returned. *)
Definition item (s : list char) (i : Z) : char :=
  nth (Z.to_nat (if i <? 0 then len s + i else i)) s 0%N.

(** [range(n)] and [range(a, b)] *)
Definition range (n : Z) : list Z := seqZ 0 n.
Definition range_from (a b : Z) : list Z := seqZ a (b - a).

(** [max(0, x)] on a float [x]: Python returns [x] when [x > 0], else 0. *)
Definition max0 (x : float) : float :=
  if PrimFloat.ltb 0 x then x else 0%float.

(** The body of the loop of [custom_distance]. *)
Definition phonetic_step (word1 word2 : list char)
    (phonetic_adjustment : float) (i : Z) : float :=
  if negb (item word1 i =? item word2 i)%N
  then (phonetic_adjustment
        + (calculate_phonetic_distance (item word1 i) (item word2 i) - 1))%float
  else phonetic_adjustment.

(** [custom_distance] *)
Definition custom_distance (word1 word2 : list char) : float :=
  let base_distance := levenshtein word1 word2 in
  let min_len := Z.min (len word1) (len word2) in
  let phonetic_adjustment :=
    fold_left (phonetic_step word1 word2) (range min_len) 0%float in
  max0 (of_int base_distance + phonetic_adjustment)%float.

(** The length gate of [get_suggestions]: [true] when the word is skipped. *)
Definition length_gate (word dict_word : list char) : bool :=
  Z.abs (len word - len dict_word) >? Z.min 3 (len word / 2 + 1).

(** The prefix loop: [for i in range(...)] with its [break]. *)
Fixpoint prefix_loop (word dict_word : list char) (indices : list Z)
    (prefix_length : Z) : Z :=
  match indices with
  | [] => prefix_length
  | i :: rest =>
      if (item word i =? item dict_word i)%N
      then prefix_loop word dict_word rest (prefix_length + 1)
      else prefix_length
  end.

(** The suffix loop: [for i in range(1, ... + 1)] with its [break]. *)
Fixpoint suffix_loop (word dict_word : list char) (indices : list Z)
    (suffix_length : Z) : Z :=
  match indices with
  | [] => suffix_length
  | i :: rest =>
      if (len word >=? i) && (len dict_word >=? i)
         && (item word (- i) =? item dict_word (- i))%N
      then suffix_loop word dict_word rest (suffix_length + 1)
      else suffix_length
  end.

Definition prefix_length (word dict_word : list char) : Z :=
  prefix_loop word dict_word (range (Z.min (len word) (len dict_word))) 0.

Definition suffix_length (word dict_word : list char) : Z :=
  suffix_loop word dict_word
    (range_from 1 (Z.min (len word) (len dict_word) + 1)) 0.

(** The score that [get_suggestions] gives a candidate that passed the gate. *)
Definition weighted_score (word dict_word : list char) : float :=
  let word_len := len word in
  let dict_word_len := len dict_word in
  let adjusted_distance := custom_distance word dict_word in
  let max_len := Z.max word_len dict_word_len in
  let normalized_distance :=
    if max_len >? 0 then (adjusted_distance / of_int max_len)%float
    else adjusted_distance in
  let prefix_length := prefix_length word dict_word in
  let suffix_length := suffix_length word dict_word in
  let prefix_bonus :=
    if prefix_length >? 1
    then (of_int prefix_length / of_int (Z.max word_len 1))%float
    else 0%float in
  let suffix_bonus :=
    if suffix_length >? 1
    then (of_int suffix_length / of_int (Z.max word_len 1))%float
    else 0%float in
  let length_ratio :=
    if max_len >? 0
    then (of_int (Z.min word_len dict_word_len)
          / of_int (Z.max word_len dict_word_len))%float
    else 0%float in
  let weighted_score :=
    (normalized_distance
     - (prefix_bonus * 0.4)
     - (suffix_bonus * 0.2)
     - (length_ratio * 0.2))%float in
  if (prefix_length >=? 3) && (suffix_length >=? 1)
  then (weighted_score - 0.3)%float
  else weighted_score.

(** The body of the loop over the vocabulary. *)
Definition suggestion_step (word : list char)
    (suggestions : list (list char * float)) (dict_word : list char)
    : list (list char * float) :=
  if length_gate word dict_word then suggestions
  else suggestions ++ [(dict_word, weighted_score word dict_word)].

(** [suggestions.sort(key=lambda x: x[1])]: ascending and stable.  An entry
    goes before the first one whose score is strictly greater. *)
Fixpoint insert_by_score (x : list char * float)
    (sorted : list (list char * float)) : list (list char * float) :=
  match sorted with
  | [] => [x]
  | y :: rest =>
      if PrimFloat.ltb (snd x) (snd y) then x :: y :: rest
      else y :: insert_by_score x rest
  end.

Definition sort_by_score (suggestions : list (list char * float))
    : list (list char * float) :=
  fold_left (fun sorted x => insert_by_score x sorted) suggestions [].

(** [l[:k]]: a negative [k] counts from the end. *)
Definition slice_to {A} (l : list A) (k : Z) : list A :=
  if k <? 0 then take (Z.to_nat (Z.of_nat (length l) + k)) l
  else take (Z.to_nat k) l.

(** [get_suggestions], over the order [word_list] in which the set is
    iterated. *)
Definition get_suggestions (word_list : list (list char)) (word : list char)
    (max_suggestions : Z) : list (list char) :=
  let suggestions := fold_left (suggestion_step word) word_list [] in
  let suggestions := sort_by_score suggestions in
  List.map fst (slice_to suggestions max_suggestions).

(** ** Checker *)

(** What [str.split()] takes as white space. *)
Definition is_space (c : char) : bool :=
  (((0x9 <=? c) && (c <=? 0xD)) || ((0x1C <=? c) && (c <=? 0x20))
   || (c =? 0x85) || (c =? 0xA0) || (c =? 0x1680)
   || ((0x2000 <=? c) && (c <=? 0x200A))
   || (c =? 0x2028) || (c =? 0x2029) || (c =? 0x202F) || (c =? 0x205F)
   || (c =? 0x3000))%N.

(** [text.split()]: the maximal runs of characters that are not white space.
    [current] holds the run being read, last character first. *)
Fixpoint split_from (current : list char) (text : list char)
    : list (list char) :=
  match text with
  | [] => match current with [] => [] | _ => [rev current] end
  | c :: rest =>
      if is_space c
      then match current with
           | [] => split_from [] rest
           | _ => rev current :: split_from [] rest
           end
      else split_from (c :: current) rest
  end.

Definition str_split (text : list char) : list (list char) :=
  split_from [] text.

(** The character class [\u0600-\u06FF]. *)
Definition is_arabic (c : char) : bool :=
  ((0x600 <=? c) && (c <=? 0x6FF))%N.

Definition nonempty (s : list char) : bool :=
  match s with [] => false | _ => true end.

(** The state of a checker: the vocabulary, a set. *)
Record ArabicSpellChecker := { word_list : gset (list char) }.

(** [__init__], from the set of lines that [load_word_list] returns. *)
Definition init (lines : gset (list char)) : ArabicSpellChecker :=
  {| word_list := set_map normalize_text lines |}.

(** [order] is an order in which the vocabulary may be iterated. *)
Definition iterates (self : ArabicSpellChecker) (order : list (list char))
    : Prop :=
  order ≡ₚ elements (word_list self).

(** The body of the loop of [check_text]. *)
Definition check_word (self : ArabicSpellChecker) (order : list (list char))
    (misspelled : gmap (list char) (list (list char))) (word : list char)
    : gmap (list char) (list (list char)) :=
  if negb (nonempty word) || negb (existsb is_arabic word) then misspelled
  else
    let clean_word := List.filter is_arabic word in
    if nonempty clean_word && negb (bool_decide (clean_word ∈ word_list self))
    then <[ word := get_suggestions order clean_word 3 ]> misspelled
    else misspelled.

(** [check_text] *)
Definition check_text (self : ArabicSpellChecker) (order : list (list char))
    (text : list char) : gmap (list char) (list (list char)) :=
  let text := remove_diacritics text in
  let text := normalize_text text in
  let words := str_split text in
  fold_left (check_word self order) words ∅.

(** ** Auxiliary notions of the statements *)

(** The candidates that pass the length gate, each with its score, in the
    order of the iteration: what the loop of [get_suggestions] collects. *)
Definition candidates (word : list char) (order : list (list char))
    : list (list char * float) :=
  List.map (fun dict_word => (dict_word, weighted_score word dict_word))
    (List.filter (fun dict_word => negb (length_gate word dict_word)) order).

(** The words of the concrete scenario. *)
Definition kitab : list char := [0x643; 0x62A; 0x627; 0x628]%N.
Definition kutub : list char := [0x643; 0x62A; 0x628]%N.
Definition maktaba : list char := [0x645; 0x643; 0x62A; 0x628; 0x629]%N.
Definition maktaba_normalized : list char :=
  [0x645; 0x643; 0x62A; 0x628; 0x647]%N.
Definition kitab_altered : list char := [0x643; 0x62A; 0x627; 0x63E]%N.
Definition scenario : ArabicSpellChecker := init {[ kitab; kutub; maktaba ]}.


(** A vocabulary line written with a vowel mark: kaf, fatha, ta, ba. *)
Definition kataba_vocalized : list char := [0x643; 0x64E; 0x62A; 0x628]%N.

(** Three exclamation marks. *)
Definition punctuation : list char := [0x21; 0x21; 0x21]%N.


(** ** The score, as the specification words it *)

(** The length of the longest common leading run of two strings. *)
Fixpoint common_prefix (s t : list char) : Z :=
  match s, t with
  | a :: s', b :: t' => if (a =? b)%N then 1 + common_prefix s' t' else 0
  | _, _ => 0
  end.

Definition prefix_run (word dict_word : list char) : Z :=
  common_prefix word dict_word.

(** The longest common trailing run: the leading run of the reversals. *)
Definition suffix_run (word dict_word : list char) : Z :=
  common_prefix (rev word) (rev dict_word).

(** The sum, over the aligned positions where the two words differ, of the
    phonetic distance less 1, added up from the first position on. *)
Definition phonetic_term (sum : float) (pair : char * char) : float :=
  if negb (fst pair =? snd pair)%N
  then (sum + (calculate_phonetic_distance (fst pair) (snd pair) - 1))%float
  else sum.

Definition phonetic_sum (word dict_word : list char) : float :=
  fold_left phonetic_term (combine word dict_word) 0%float.

Definition normalized_distance (word dict_word : list char) : float :=
  (max0 (of_int (levenshtein word dict_word) + phonetic_sum word dict_word)
   / of_int (Z.max (len word) (len dict_word)))%float.

Definition prefix_bonus (word dict_word : list char) : float :=
  if prefix_run word dict_word >? 1
  then (of_int (prefix_run word dict_word) / of_int (len word))%float
  else 0%float.

Definition suffix_bonus (word dict_word : list char) : float :=
  if suffix_run word dict_word >? 1
  then (of_int (suffix_run word dict_word) / of_int (len word))%float
  else 0%float.

Definition length_ratio (word dict_word : list char) : float :=
  (of_int (Z.min (len word) (len dict_word))
   / of_int (Z.max (len word) (len dict_word)))%float.

Definition claimed_score (word dict_word : list char) : float :=
  let base :=
    (normalized_distance word dict_word
     - 0.4 * prefix_bonus word dict_word
     - 0.2 * suffix_bonus word dict_word
     - 0.2 * length_ratio word dict_word)%float in
  if (prefix_run word dict_word >=? 3) && (suffix_run word dict_word >=? 1)
  then (base - 0.3)%float
  else base.


(** ** Loading the vocabulary *)

(** [s.strip()]: white space taken off both ends. *)
Fixpoint lstrip (s : list char) : list char :=
  match s with
  | c :: rest => if is_space c then lstrip rest else s
  | [] => []
  end.

Definition strip (s : list char) : list char :=
  rev (lstrip (rev (lstrip s))).

(** The lines that iterating over a text file yields, each with its newline.
    [current] holds the line being read, last character first.  The file is
    taken after decoding and newline translation, so that U+000A alone ends a
    line. *)
Fixpoint lines_from (current : list char) (content : list char)
    : list (list char) :=
  match content with
  | [] => match current with [] => [] | _ => [rev current] end
  | c :: rest =>
      if (c =? 0xA)%N then rev (c :: current) :: lines_from [] rest
      else lines_from (c :: current) rest
  end.

Definition file_lines (content : list char) : list (list char) :=
  lines_from [] content.

(** [load_word_list]: [file] is the content of the file at the path, or [None]
    when there is no such file (the [FileNotFoundError] branch, which prints a
    message and returns the empty set). *)
Definition load_word_list (file : option (list char)) : gset (list char) :=
  match file with
  | Some content =>
      list_to_set
        (List.map strip
           (List.filter (fun line => nonempty (strip line))
              (file_lines content)))
  | None => ∅
  end.

(** [ArabicSpellChecker(word_list_path)] of [src/main.py]. *)
Definition new_checker (file : option (list char)) : ArabicSpellChecker :=
  init (load_word_list file).

(** [ArabicSpellChecker(word_list_path)] of
    [src/arabic_spell_checker_fixed.py], whose [__init__] keeps the loaded
    words as they are; its other methods are those of [src/main.py]. *)
Definition new_checker_unnormalized (file : option (list char))
    : ArabicSpellChecker :=
  {| word_list := load_word_list file |}.


(** ** Presentation: [SpellCheckerApp.check_spelling] *)

(** The string literals of [check_spelling], as code points. *)

(** The message for an empty input: Please enter some text to check. *)
Definition PLEASE_ENTER : list char :=
  [0x50; 0x6C; 0x65; 0x61; 0x73; 0x65; 0x20; 0x65; 0x6E; 0x74; 0x65; 0x72;
   0x20; 0x73; 0x6F; 0x6D; 0x65; 0x20; 0x74; 0x65; 0x78; 0x74; 0x20; 0x74;
   0x6F; 0x20; 0x63; 0x68; 0x65; 0x63; 0x6B; 0x2E]%N.

(** The message for an empty mapping: No spelling errors found! *)
Definition NO_ERRORS : list char :=
  [0x4E; 0x6F; 0x20; 0x73; 0x70; 0x65; 0x6C; 0x6C; 0x69; 0x6E; 0x67; 0x20;
   0x65; 0x72; 0x72; 0x6F; 0x72; 0x73; 0x20; 0x66; 0x6F; 0x75; 0x6E; 0x64;
   0x21]%N.

(** The head of the report: Original text, colon, space. *)
Definition ORIGINAL_TEXT : list char :=
  [0x4F; 0x72; 0x69; 0x67; 0x69; 0x6E; 0x61; 0x6C; 0x20; 0x74; 0x65; 0x78;
   0x74; 0x3A; 0x20]%N.

(** Two newlines, Misspelled words, colon, newline. *)
Definition MISSPELLED_HEADER : list char :=
  [0xA; 0xA; 0x4D; 0x69; 0x73; 0x73; 0x70; 0x65; 0x6C; 0x6C; 0x65; 0x64;
   0x20; 0x77; 0x6F; 0x72; 0x64; 0x73; 0x3A; 0xA]%N.

(** Newline, the bullet U+2022, space. *)
Definition BULLET : list char :=
  [0xA; 0x2022; 0x20]%N.

(** Colon, newline. *)
Definition COLON_NEWLINE : list char :=
  [0x3A; 0xA]%N.

(** Two spaces, Suggestions, colon, space. *)
Definition SUGGESTIONS : list char :=
  [0x20; 0x20; 0x53; 0x75; 0x67; 0x67; 0x65; 0x73; 0x74; 0x69; 0x6F; 0x6E;
   0x73; 0x3A; 0x20]%N.

(** Two spaces and: No suggestions available. *)
Definition NO_SUGGESTIONS : list char :=
  [0x20; 0x20; 0x4E; 0x6F; 0x20; 0x73; 0x75; 0x67; 0x67; 0x65; 0x73; 0x74;
   0x69; 0x6F; 0x6E; 0x73; 0x20; 0x61; 0x76; 0x61; 0x69; 0x6C; 0x61; 0x62;
   0x6C; 0x65; 0x2E]%N.

(** Comma, space. *)
Definition COMMA_SPACE : list char :=
  [0x2C; 0x20]%N.

(** A [dict] as the list of its items in the order in which the keys were
    first assigned; assigning to a key that is there keeps its place. *)
Fixpoint dict_set (key : list char) (value : list (list char))
    (items : list (list char * list (list char)))
    : list (list char * list (list char)) :=
  match items with
  | [] => [(key, value)]
  | (k, v) :: rest =>
      if bool_decide (k = key) then (k, value) :: rest
      else (k, v) :: dict_set key value rest
  end.

(** The body of the loop of [check_text], on the items of [misspelled]. *)
Definition check_word_items (self : ArabicSpellChecker)
    (order : list (list char))
    (misspelled : list (list char * list (list char))) (word : list char)
    : list (list char * list (list char)) :=
  if negb (nonempty word) || negb (existsb is_arabic word) then misspelled
  else
    let clean_word := List.filter is_arabic word in
    if nonempty clean_word && negb (bool_decide (clean_word ∈ word_list self))
    then dict_set word (get_suggestions order clean_word 3) misspelled
    else misspelled.

(** [check_text(text).items()]: the mapping with its order. *)
Definition check_text_items (self : ArabicSpellChecker)
    (order : list (list char)) (text : list char)
    : list (list char * list (list char)) :=
  let text := remove_diacritics text in
  let text := normalize_text text in
  let words := str_split text in
  fold_left (check_word_items self order) words [].

(** [sep.join(l)] *)
Fixpoint join (sep : list char) (l : list (list char)) : list char :=
  match l with
  | [] => []
  | x :: rest =>
      match rest with
      | [] => x
      | _ => x ++ sep ++ join sep rest
      end
  end.

(** The body of the loop that writes the report. *)
Definition report_entry (result : list char)
    (item : list char * list (list char)) : list char :=
  let result := result ++ BULLET ++ fst item ++ COLON_NEWLINE in
  match snd item with
  | [] => result ++ NO_SUGGESTIONS
  | _ => result ++ SUGGESTIONS ++ join COMMA_SPACE (snd item)
  end.

(** [check_spelling]: from the content of the input widget to the string
    handed to [update_result]. *)
Definition check_spelling (self : ArabicSpellChecker)
    (order : list (list char)) (input : list char) : list char :=
  let text := strip input in
  if negb (nonempty text) then PLEASE_ENTER
  else
    let misspelled := check_text_items self order text in
    match misspelled with
    | [] => NO_ERRORS
    | _ =>
        fold_left report_entry misspelled
          (ORIGINAL_TEXT ++ text ++ MISSPELLED_HEADER)
    end.


(** ** Normalizer: lemmas *)

Lemma normalize_text_map text : normalize_text text = List.map norm_char text.
Proof.
  unfold normalize_text, replace. rewrite !List.map_map. reflexivity.
Qed.

Ltac char_cases :=
  unfold canonical_char, norm_char, is_diacritic,
    ALEF_MAKSURA, YA, TA_MARBUTA, HA, ALEF_HAMZA_ABOVE, ALEF_HAMZA_BELOW,
    ALEF_MADDA, ALEF in *;
  repeat match goal with
  | |- context [(?a =? ?b)%N] =>
      is_var a; destruct (N.eqb_spec a b); subst; simpl in *
  | H : context [(?a =? ?b)%N] |- _ =>
      is_var a; destruct (N.eqb_spec a b); subst; simpl in *
  end;
  repeat match goal with
  | |- context [(?a <=? ?b)%N] => destruct (N.leb_spec a b); simpl in *
  | H : context [(?a <=? ?b)%N] |- _ => destruct (N.leb_spec a b); simpl in *
  end; try reflexivity; try congruence; try lia.

Lemma norm_char_canonical c :
  is_diacritic c = false -> canonical_char (norm_char c) = true.
Proof. intros H. char_cases. Qed.

Lemma preprocess_canonical text :
  Forall (fun c => canonical_char c = true) (preprocess text).
Proof.
  unfold preprocess. rewrite normalize_text_map.
  induction text as [|c text IH]; simpl; [constructor|].
  destruct (is_diacritic c) eqn:E; simpl; [exact IH|].
  constructor; [apply norm_char_canonical; exact E | exact IH].
Qed.

Lemma preprocess_fixed text :
  Forall (fun c => canonical_char c = true) text -> preprocess text = text.
Proof.
  unfold preprocess. rewrite normalize_text_map.
  induction 1 as [|c text Hc _ IH]; simpl; [reflexivity|].
  unfold canonical_char in Hc. apply andb_true_iff in Hc as [Hd Hn].
  rewrite Hd. simpl. apply N.eqb_eq in Hn. rewrite Hn, IH. reflexivity.
Qed.

(** C7. Normalization idempotence: for every text, the full normalization
    (diacritic removal, then the five variant replacements) applied twice
    gives what it gives applied once. *)
Theorem normalization_idempotent (text : list char) :
  preprocess (preprocess text) = preprocess text.
Proof. apply preprocess_fixed, preprocess_canonical. Qed.

(** ** Phonetic model: lemmas *)

Lemma same_group_spec char_groups a b :
  same_group char_groups a b = true <->
  exists group, group ∈ char_groups /\ a ∈ group /\ b ∈ group.
Proof.
  induction char_groups as [|g rest IH]; simpl.
  - split; [discriminate|]. intros (g & Hg & _). inversion Hg.
  - destruct (bool_decide (a ∈ g) && bool_decide (b ∈ g)) eqn:E.
    + split; [intros _|reflexivity].
      apply andb_true_iff in E as [Ha Hb].
      apply bool_decide_eq_true in Ha, Hb.
      exists g. split; [left | split; assumption].
    + rewrite IH. split.
      * intros (g' & Hg' & Hab). exists g'. split; [right; exact Hg' | exact Hab].
      * intros (g' & Hg' & Ha & Hb).
        apply elem_of_cons in Hg' as [-> | Hg'].
        -- apply andb_false_iff in E as [E | E];
             apply bool_decide_eq_false in E; contradiction.
        -- exists g'. split; [exact Hg' | split; assumption].
Qed.

(** C4. The phonetic distance of two characters is 0, 0.5 or 1: 0 when they
    are equal; 0.5 when they differ and some group of the fixed list holds
    both (however many groups do); 1 otherwise, in particular when one of
    them is in no group. *)
Theorem phonetic_distance_cases (a b : char) :
  (calculate_phonetic_distance a b = 0%float
   \/ calculate_phonetic_distance a b = 0.5%float
   \/ calculate_phonetic_distance a b = 1%float)
  /\ (a = b -> calculate_phonetic_distance a b = 0%float)
  /\ (a <> b ->
      (exists group, group ∈ get_character_groups /\ a ∈ group /\ b ∈ group) ->
      calculate_phonetic_distance a b = 0.5%float)
  /\ (a <> b ->
      ~ (exists group, group ∈ get_character_groups /\ a ∈ group /\ b ∈ group) ->
      calculate_phonetic_distance a b = 1%float).
Proof.
  unfold calculate_phonetic_distance.
  destruct (N.eqb_spec a b) as [Heq | Hne].
  - repeat split; auto; intros; contradiction.
  - destruct (same_group get_character_groups a b) eqn:E.
    + repeat split; auto; try contradiction.
      intros _ Hno. apply same_group_spec in E. contradiction.
    + repeat split; auto; try contradiction.
      intros _ Hex. apply same_group_spec in Hex. congruence.
Qed.

Lemma phonetic_distance_cases_witness :
  calculate_phonetic_distance 0x62D%N 0x62E%N = 0.5%float
  /\ calculate_phonetic_distance 0x62D%N 0x628%N = 1%float.
Proof.
  split.
  - apply (proj1 (proj2 (proj2 (phonetic_distance_cases 0x62D%N 0x62E%N)))).
    + discriminate.
    + exists {[ 0x62D; 0x647; 0x62E ]}%N. split.
      * unfold get_character_groups. do 8 apply list_elem_of_further.
        apply list_elem_of_here.
      * split; vm_compute; reflexivity.
  - apply (proj2 (proj2 (proj2 (phonetic_distance_cases 0x62D%N 0x628%N)))).
    + discriminate.
    + intros Hex. apply same_group_spec in Hex. vm_compute in Hex. discriminate.
Defined.

(** ** Matcher: the loop, the sort and the slice *)

Lemma suggestion_loop word order acc :
  fold_left (suggestion_step word) order acc = acc ++ candidates word order.
Proof.
  revert acc. induction order as [|d order IH]; intros acc; simpl.
  - unfold candidates. simpl. rewrite app_nil_r. reflexivity.
  - rewrite IH. unfold suggestion_step, candidates. simpl.
    destruct (length_gate word d); simpl; [reflexivity|].
    rewrite <- app_assoc. reflexivity.
Qed.

Lemma insert_by_score_perm x sorted : insert_by_score x sorted ≡ₚ x :: sorted.
Proof.
  induction sorted as [|y rest IH]; simpl; [reflexivity|].
  destruct (PrimFloat.ltb (snd x) (snd y)); [reflexivity|].
  rewrite IH. apply perm_swap.
Qed.

Lemma sort_loop_perm suggestions acc :
  fold_left (fun sorted x => insert_by_score x sorted) suggestions acc
  ≡ₚ acc ++ suggestions.
Proof.
  revert acc. induction suggestions as [|x l IH]; intros acc; simpl.
  - rewrite app_nil_r. reflexivity.
  - rewrite IH, insert_by_score_perm. apply Permutation_middle.
Qed.

Lemma sort_by_score_perm suggestions :
  sort_by_score suggestions ≡ₚ suggestions.
Proof. unfold sort_by_score. rewrite sort_loop_perm. reflexivity. Qed.

Lemma slice_to_sublist {A} (l : list A) k : slice_to l k `sublist_of` l.
Proof. unfold slice_to. destruct (k <? 0); apply sublist_take. Qed.

Lemma slice_to_length {A} (l : list A) k :
  0 <= k -> Z.of_nat (length (slice_to l k)) <= k.
Proof.
  intros Hk. unfold slice_to. destruct (Z.ltb_spec k 0); [lia|].
  pose proof (firstn_le_length (Z.to_nat k) l). lia.
Qed.

(** The suggestions are the first components of a sublist of a permutation of
    the scored candidates. *)
Lemma get_suggestions_shape order word k :
  exists sorted,
    sorted ≡ₚ candidates word order
    /\ get_suggestions order word k = List.map fst (slice_to sorted k).
Proof.
  exists (sort_by_score (candidates word order)). split.
  - apply sort_by_score_perm.
  - unfold get_suggestions. rewrite suggestion_loop. reflexivity.
Qed.

Lemma candidates_fst word order :
  List.map fst (candidates word order)
  = List.filter (fun d => negb (length_gate word d)) order.
Proof.
  unfold candidates. rewrite List.map_map. simpl. apply List.map_id.
Qed.

Lemma get_suggestions_sublist order word k :
  exists words,
    words ≡ₚ List.filter (fun d => negb (length_gate word d)) order
    /\ get_suggestions order word k `sublist_of` words.
Proof.
  destruct (get_suggestions_shape order word k) as (sorted & Hperm & ->).
  exists (List.map fst sorted). split.
  - rewrite <- candidates_fst. apply Permutation_map, Hperm.
  - apply (fmap_sublist fst), slice_to_sublist.
Qed.

Lemma get_suggestions_In order word k dict_word :
  dict_word ∈ get_suggestions order word k ->
  dict_word ∈ order /\ length_gate word dict_word = false.
Proof.
  intros Hin.
  destruct (get_suggestions_sublist order word k) as (words & Hperm & Hsub).
  eapply elem_of_sublist in Hin; [|exact Hsub].
  rewrite Hperm in Hin. apply list_elem_of_In, filter_In in Hin as [Hin Hg].
  split; [apply list_elem_of_In, Hin | apply negb_true_iff, Hg].
Qed.

Lemma get_suggestions_length order word k :
  (length (get_suggestions order word k)
   <= length (List.filter (fun d => negb (length_gate word d)) order))%nat.
Proof.
  destruct (get_suggestions_sublist order word k) as (words & Hperm & Hsub).
  rewrite <- (Permutation_length Hperm). apply sublist_length, Hsub.
Qed.

Lemma get_suggestions_nil order word k :
  List.filter (fun d => negb (length_gate word d)) order = [] ->
  get_suggestions order word k = [].
Proof.
  intros Hnil. pose proof (get_suggestions_length order word k) as Hlen.
  rewrite Hnil in Hlen.
  destruct (get_suggestions order word k); [reflexivity|simpl in Hlen; lia].
Qed.

Lemma iterates_size self order :
  iterates self order -> length order = size (word_list self).
Proof. intros H. unfold iterates in H. rewrite H. reflexivity. Qed.

Lemma iterates_elem self order w :
  iterates self order -> w ∈ order <-> w ∈ word_list self.
Proof. intros H. unfold iterates in H. rewrite H. apply elem_of_elements. Qed.

Lemma iterates_NoDup self order : iterates self order -> NoDup order.
Proof. intros H. unfold iterates in H. rewrite H. apply NoDup_elements. Qed.

Lemma iterates_elements self : iterates self (elements (word_list self)).
Proof. unfold iterates. reflexivity. Qed.

(** ** Matcher: properties of the suggestions *)

(** C5. Length gate: whatever the query word, the vocabulary, the order of
    its iteration and [k], no word [dict_word] with
    [abs(len(word) - len(dict_word)) > min(3, len(word) // 2 + 1)] is in the
    list that [get_suggestions] returns. *)
Theorem length_gate_correct (order : list (list char)) (word : list char)
    (k : Z) (dict_word : list char) :
  dict_word ∈ get_suggestions order word k ->
  ~ (Z.abs (len word - len dict_word) > Z.min 3 (len word / 2 + 1)).
Proof.
  intros Hin Hgt. apply get_suggestions_In in Hin as [_ Hgate].
  unfold length_gate in Hgate. rewrite Z.gtb_ltb in Hgate. apply Z.ltb_ge in Hgate. lia.
Qed.

Lemma length_gate_correct_witness :
  ~ (Z.abs (len kitab_altered - len kutub)
     > Z.min 3 (len kitab_altered / 2 + 1)).
Proof.
  apply (length_gate_correct [maktaba_normalized; kutub; kitab]
           kitab_altered 3 kutub).
  vm_compute. apply list_elem_of_further, list_elem_of_here.
Defined.

(** C6. Bounded output: for every query word, every vocabulary and every
    number [k] of suggestions asked for (a count, so [k >= 0]) the list
    returned has at most [k] words, and at most as many words as the
    vocabulary; an empty vocabulary, or one whose words are all stopped by
    the length gate, gives the empty list. *)
Theorem bounded_output (self : ArabicSpellChecker) (order : list (list char))
    (word : list char) (k : Z) :
  iterates self order ->
  (0 <= k -> Z.of_nat (length (get_suggestions order word k)) <= k)
  /\ (length (get_suggestions order word k) <= size (word_list self))%nat
  /\ (word_list self = ∅ -> get_suggestions order word k = [])
  /\ ((forall d, d ∈ word_list self -> length_gate word d = true) ->
      get_suggestions order word k = []).
Proof.
  intros Hit. repeat split.
  - intros Hk.
    destruct (get_suggestions_shape order word k) as (sorted & _ & ->).
    rewrite length_map. apply slice_to_length, Hk.
  - rewrite <- (iterates_size self order Hit).
    etransitivity; [apply get_suggestions_length|]. apply filter_length_le.
  - intros Hempty.
    apply get_suggestions_nil.
    assert (order = []) as ->; [|reflexivity].
    apply Permutation_nil_r. rewrite Hit, Hempty, elements_empty. reflexivity.
  - intros Hall. apply get_suggestions_nil.
    assert (forall d, In d order -> length_gate word d = true) as Hall'.
    { intros d Hd. apply Hall, (iterates_elem self order d Hit).
      apply list_elem_of_In, Hd. }
    clear Hall Hit. induction order as [|d order IH]; simpl; [reflexivity|].
    rewrite (Hall' d (or_introl eq_refl)). simpl.
    apply IH. intros d' Hd'. apply Hall'. right. exact Hd'.
Qed.

Lemma bounded_output_witness :
  Z.of_nat (length (get_suggestions (elements (word_list scenario))
                      kitab_altered 2)) <= 2.
Proof.
  apply (bounded_output scenario (elements (word_list scenario))
           kitab_altered 2 (iterates_elements scenario)).
  lia.
Defined.

(** C10. Every word in the list that [get_suggestions] returns is a word of
    the checker's vocabulary, and no word is in that list twice, whatever the
    query word and [k]. *)
Theorem suggestions_from_vocabulary (self : ArabicSpellChecker)
    (order : list (list char)) (word : list char) (k : Z) :
  iterates self order ->
  (forall w, w ∈ get_suggestions order word k -> w ∈ word_list self)
  /\ NoDup (get_suggestions order word k).
Proof.
  intros Hit. split.
  - intros w Hw. apply get_suggestions_In in Hw as [Hw _].
    apply (iterates_elem self order w Hit), Hw.
  - destruct (get_suggestions_sublist order word k) as (words & Hperm & Hsub).
    eapply sublist_NoDup; [|exact Hsub].
    rewrite Hperm. apply NoDup_ListNoDup, List.NoDup_filter, NoDup_ListNoDup.
    apply (iterates_NoDup self), Hit.
Qed.

Lemma suggestions_from_vocabulary_witness :
  (forall w, w ∈ get_suggestions (elements (word_list scenario))
                   kitab_altered 3 -> w ∈ word_list scenario)
  /\ NoDup (get_suggestions (elements (word_list scenario)) kitab_altered 3).
Proof.
  apply (suggestions_from_vocabulary scenario (elements (word_list scenario))
           kitab_altered 3 (iterates_elements scenario)).
Defined.

(** ** Checker: tokens and the loop over them *)

Lemma split_from_chars current text token c :
  In token (split_from current text) -> In c token ->
  In c current \/ In c text.
Proof.
  revert current. induction text as [|c0 rest IH]; intros current Htok Hc.
  - simpl in Htok. destruct current as [|x current]; [contradiction|].
    destruct Htok as [<- | []]. left. apply in_rev. exact Hc.
  - simpl in Htok. destruct (is_space c0).
    + destruct current as [|x current].
      * destruct (IH [] Htok Hc) as [[] | H]. right. right. exact H.
      * destruct Htok as [<- | Htok].
        -- left. apply in_rev. exact Hc.
        -- destruct (IH [] Htok Hc) as [[] | H]. right. right. exact H.
    + destruct (IH (c0 :: current) Htok Hc) as [[-> | H] | H].
      * right. left. reflexivity.
      * left. exact H.
      * right. right. exact H.
Qed.

Lemma str_split_chars text token c :
  In token (str_split text) -> In c token -> In c text.
Proof.
  intros Htok Hc. destruct (split_from_chars [] text token c Htok Hc) as [[]|H].
  exact H.
Qed.

(** The tokens that [check_text] reads are left alone by the preprocessing. *)
Lemma token_preprocessed text token :
  In token (str_split (preprocess text)) -> preprocess token = token.
Proof.
  intros Htok. apply preprocess_fixed, Forall_forall. intros c Hc.
  apply list_elem_of_In in Hc.
  pose proof (preprocess_canonical text) as Hcan.
  rewrite Forall_forall in Hcan. apply Hcan, list_elem_of_In.
  eapply str_split_chars; eassumption.
Qed.

(** A key of the mapping was there before the loop or is one of its tokens,
    with a script character and a clean word outside the vocabulary. *)
Lemma check_loop_lookup self order words misspelled token suggestions :
  fold_left (check_word self order) words misspelled !! token
    = Some suggestions ->
  misspelled !! token = Some suggestions
  \/ (In token words /\ existsb is_arabic token = true
      /\ ~ (List.filter is_arabic token ∈ word_list self)
      /\ suggestions = get_suggestions order (List.filter is_arabic token) 3).
Proof.
  revert misspelled. induction words as [|w words IH]; intros m H; simpl in H.
  - left. exact H.
  - apply IH in H as [H | (Hin & Hrest)].
    + unfold check_word in H.
      destruct (negb (nonempty w) || negb (existsb is_arabic w)) eqn:Eskip;
        [left; exact H|].
      destruct (nonempty (List.filter is_arabic w)
                && negb (bool_decide (List.filter is_arabic w ∈ word_list self)))
        eqn:Eins; [|left; exact H].
      destruct (decide (w = token)) as [-> | Hne].
      * rewrite lookup_insert_eq in H. injection H as <-.
        right. split; [left; reflexivity|].
        apply orb_false_iff in Eskip as [_ Ear].
        apply negb_false_iff in Ear.
        apply andb_true_iff in Eins as [_ Enot].
        apply negb_true_iff, bool_decide_eq_false in Enot.
        repeat split; assumption.
      * rewrite lookup_insert_ne in H by exact Hne. left. exact H.
    + right. split; [right; exact Hin | exact Hrest].
Qed.

Lemma check_text_lookup self order text token suggestions :
  check_text self order text !! token = Some suggestions ->
  In token (str_split (preprocess text))
  /\ existsb is_arabic token = true
  /\ ~ (List.filter is_arabic token ∈ word_list self)
  /\ suggestions = get_suggestions order (List.filter is_arabic token) 3.
Proof.
  intros H. apply check_loop_lookup in H as [H | H]; [|exact H].
  rewrite lookup_empty in H. discriminate.
Qed.

(** C3. For every text and every token whose cleaned, normalized word is in
    the vocabulary, the mapping that [check_text] returns has no entry for
    that token. *)
Theorem known_word_omitted (self : ArabicSpellChecker)
    (order : list (list char)) (text token : list char) :
  List.filter is_arabic (preprocess token) ∈ word_list self ->
  check_text self order text !! token = None.
Proof.
  intros Hknown.
  destruct (check_text self order text !! token) as [suggestions|] eqn:E;
    [|reflexivity].
  apply check_text_lookup in E as (Htok & _ & Hnot & _).
  rewrite (token_preprocessed text token Htok) in Hknown. contradiction.
Qed.

Lemma known_word_omitted_witness :
  check_text scenario (elements (word_list scenario))
    (kitab ++ [0x20%N] ++ maktaba) !! maktaba = None.
Proof.
  apply (known_word_omitted scenario (elements (word_list scenario))
           (kitab ++ [0x20%N] ++ maktaba) maktaba).
  vm_compute. reflexivity.
Defined.

Lemma check_word_skips self order misspelled token :
  existsb is_arabic token = false ->
  check_word self order misspelled token = misspelled.
Proof.
  intros H. unfold check_word. rewrite H, orb_true_r. reflexivity.
Qed.

(** C8. Input without script characters gives nothing: the empty text and the
    text of three exclamation marks give the empty mapping, and a token with
    no character in the range U+0600 to U+06FF is skipped by the loop and is
    no key of the result, whatever the text. *)
Theorem no_script_no_entry (self : ArabicSpellChecker)
    (order : list (list char)) :
  check_text self order [] = ∅
  /\ check_text self order punctuation = ∅
  /\ forall text token : list char,
       existsb is_arabic token = false ->
       (forall misspelled, check_word self order misspelled token = misspelled)
       /\ check_text self order text !! token = None.
Proof.
  split; [reflexivity|]. split; [reflexivity|].
  intros text token Hno. split.
  - intros m. apply check_word_skips, Hno.
  - destruct (check_text self order text !! token) as [l|] eqn:E;
      [|reflexivity].
    apply check_text_lookup in E as (_ & Har & _). congruence.
Qed.

Lemma no_script_no_entry_witness :
  check_text scenario (elements (word_list scenario))
    (punctuation ++ [0x20%N] ++ kitab_altered) !! punctuation = None.
Proof.
  apply (proj2 (proj2 (no_script_no_entry scenario
                         (elements (word_list scenario))))).
  vm_compute. reflexivity.
Defined.

(** ** The concrete scenario *)

(** C9. With the vocabulary of the three words, normalized at load, checking
    the one token kaf-ta-alef-U+063E gives a mapping that holds that token,
    and its list of suggestions begins with kaf-ta-alef-ba, in whatever order
    the vocabulary is iterated. *)
Theorem concrete_scenario (order : list (list char)) :
  iterates scenario order ->
  check_text scenario order kitab_altered
    = {[ kitab_altered := [kitab; kutub; maktaba_normalized] ]}
  /\ exists suggestions,
       check_text scenario order kitab_altered !! kitab_altered
         = Some suggestions
       /\ head suggestions = Some kitab.
Proof.
  intros Hit. unfold iterates in Hit. symmetry in Hit.
  apply permutations_Permutation, list_elem_of_In in Hit.
  assert (check_text scenario order kitab_altered
          = {[ kitab_altered := [kitab; kutub; maktaba_normalized] ]}) as Heq.
  { vm_compute in Hit.
    repeat (destruct Hit as [<- | Hit]; [vm_compute; reflexivity|]).
    contradiction. }
  split; [exact Heq|].
  exists [kitab; kutub; maktaba_normalized]. rewrite Heq.
  split; [apply lookup_singleton_eq | reflexivity].
Qed.

Lemma concrete_scenario_witness :
  exists suggestions,
    check_text scenario (elements (word_list scenario)) kitab_altered
      !! kitab_altered = Some suggestions
    /\ head suggestions = Some kitab.
Proof.
  apply (concrete_scenario (elements (word_list scenario))
           (iterates_elements scenario)).
Defined.

(** ** Vocabulary and query *)

(** For a word of script characters without diacritics, the form stored at
    load and the clean word of the query are the same. *)
Lemma symmetry_without_diacritics (w : list char) :
  forallb (fun c => is_arabic c && negb (is_diacritic c)) w = true ->
  normalize_text w = List.filter is_arabic (preprocess w).
Proof.
  unfold preprocess. rewrite !normalize_text_map.
  induction w as [|c w IH]; simpl; [reflexivity|].
  intros H. apply andb_true_iff in H as [Hc Hw].
  apply andb_true_iff in Hc as [Har Hd]. rewrite Hd. simpl.
  assert (is_arabic (norm_char c) = true) as ->.
  { revert Har. clear. unfold is_arabic. char_cases. }
  rewrite <- IH by exact Hw. reflexivity.
Qed.

(** C1, on the code. A vocabulary line with a vowel mark is stored with the
    mark, since [__init__] applies [normalize_text] alone, while the same
    word as a query loses it in [check_text]: the two forms differ, and the
    checker reports the word of its own vocabulary as misspelled. *)
Theorem vocabulary_keeps_diacritics :
  elements (word_list (init {[ kataba_vocalized ]})) = [kataba_vocalized]
  /\ List.filter is_arabic (preprocess kataba_vocalized) = kutub
  /\ normalize_text kataba_vocalized
     <> List.filter is_arabic (preprocess kataba_vocalized)
  /\ check_text (init {[ kataba_vocalized ]}) [kataba_vocalized]
       kataba_vocalized
     = {[ kutub := [kataba_vocalized] ]}.
Proof.
  split; [vm_compute; reflexivity|]. split; [vm_compute; reflexivity|].
  split; [vm_compute; discriminate | vm_compute; reflexivity].
Qed.

(** ** The score: loops against their closed forms *)

Lemma float_mul_comm (x y : float) : (x * y)%float = (y * x)%float.
Proof.
  apply Prim2SF_inj. rewrite !mul_spec. unfold SF64mul, SFmul.
  destruct (Prim2SF x) as [sx|sx| |sx mx ex], (Prim2SF y) as [sy|sy| |sy my ey];
    try reflexivity; rewrite ?(xorb_comm sx sy); try reflexivity.
  rewrite (Pos.mul_comm mx my), (Z.add_comm ex ey). reflexivity.
Qed.

Lemma len_app (s t : list char) : len (s ++ t) = len s + len t.
Proof. unfold len. rewrite length_app. lia. Qed.

Lemma len_cons (a : char) (s : list char) : len (a :: s) = 1 + len s.
Proof. unfold len. simpl length. lia. Qed.

Lemma len_nonneg (s : list char) : 0 <= len s.
Proof. unfold len. lia. Qed.

Lemma len_rev (s : list char) : len (rev s) = len s.
Proof. unfold len. rewrite length_rev. reflexivity. Qed.

Lemma item_app (p s : list char) (a : char) :
  item (p ++ a :: s) (len p) = a.
Proof.
  unfold item. pose proof (len_nonneg p) as Hp.
  destruct (Z.ltb_spec (len p) 0); [lia|].
  unfold len. rewrite Nat2Z.id, nth_middle. reflexivity.
Qed.

Lemma item_app' (p q s : list char) (a : char) :
  length p = length q -> item (p ++ a :: s) (len q) = a.
Proof.
  intros H. replace (len q) with (len p) by (unfold len; lia). apply item_app.
Qed.

Lemma prefix_loop_closed p1 p2 s t acc :
  length p1 = length p2 ->
  prefix_loop (p1 ++ s) (p2 ++ t) (seqZ (len p1) (Z.min (len s) (len t))) acc
  = acc + common_prefix s t.
Proof.
  revert p1 p2 t acc. induction s as [|a s IH]; intros p1 p2 t acc Hlen.
  - rewrite seqZ_nil by (pose proof (len_nonneg t); unfold len at 1; simpl; lia).
    simpl. lia.
  - destruct t as [|b t].
    + rewrite seqZ_nil
        by (pose proof (len_nonneg (a :: s)); unfold len at 2; simpl; lia).
      simpl. lia.
    + rewrite seqZ_cons
        by (rewrite !len_cons; pose proof (len_nonneg s);
            pose proof (len_nonneg t); lia).
      cbn [prefix_loop common_prefix].
      rewrite item_app, (item_app' p2 p1) by (symmetry; exact Hlen).
      destruct (a =? b)%N; [|lia].
      replace (Z.pred (Z.min (len (a :: s)) (len (b :: t))))
        with (Z.min (len s) (len t)) by (rewrite !len_cons; lia).
      replace (Z.succ (len p1)) with (len (p1 ++ [a]))
        by (rewrite len_app, len_cons; unfold len; simpl; lia).
      replace (p1 ++ a :: s) with ((p1 ++ [a]) ++ s)
        by (rewrite <- app_assoc; reflexivity).
      replace (p2 ++ b :: t) with ((p2 ++ [b]) ++ t)
        by (rewrite <- app_assoc; reflexivity).
      rewrite IH by (rewrite !length_app; simpl; lia). lia.
Qed.

Lemma prefix_length_closed word dict_word :
  prefix_length word dict_word = prefix_run word dict_word.
Proof.
  unfold prefix_length, prefix_run, range.
  exact (prefix_loop_closed [] [] word dict_word 0 eq_refl).
Qed.

Lemma phonetic_loop_closed p1 p2 s t acc :
  length p1 = length p2 ->
  fold_left (phonetic_step (p1 ++ s) (p2 ++ t))
    (seqZ (len p1) (Z.min (len s) (len t))) acc
  = fold_left phonetic_term (combine s t) acc.
Proof.
  revert p1 p2 t acc. induction s as [|a s IH]; intros p1 p2 t acc Hlen.
  - rewrite seqZ_nil by (pose proof (len_nonneg t); unfold len at 1; simpl; lia).
    reflexivity.
  - destruct t as [|b t].
    + rewrite seqZ_nil
        by (pose proof (len_nonneg (a :: s)); unfold len at 2; simpl; lia).
      reflexivity.
    + rewrite seqZ_cons
        by (rewrite !len_cons; pose proof (len_nonneg s);
            pose proof (len_nonneg t); lia).
      cbn [fold_left combine].
      replace (phonetic_step (p1 ++ a :: s) (p2 ++ b :: t) acc (len p1))
        with (phonetic_term acc (a, b))
        by (unfold phonetic_step, phonetic_term;
            rewrite item_app, (item_app' p2 p1) by (symmetry; exact Hlen);
            reflexivity).
      replace (Z.pred (Z.min (len (a :: s)) (len (b :: t))))
        with (Z.min (len s) (len t)) by (rewrite !len_cons; lia).
      replace (Z.succ (len p1)) with (len (p1 ++ [a]))
        by (rewrite len_app, len_cons; unfold len; simpl; lia).
      replace (p1 ++ a :: s) with ((p1 ++ [a]) ++ s)
        by (rewrite <- app_assoc; reflexivity).
      replace (p2 ++ b :: t) with ((p2 ++ [b]) ++ t)
        by (rewrite <- app_assoc; reflexivity).
      apply IH. rewrite !length_app. simpl. lia.
Qed.

Lemma custom_distance_closed word dict_word :
  custom_distance word dict_word
  = max0 (of_int (levenshtein word dict_word)
          + phonetic_sum word dict_word)%float.
Proof.
  unfold custom_distance, phonetic_sum, range. f_equal. f_equal.
  exact (phonetic_loop_closed [] [] word dict_word 0%float eq_refl).
Qed.

Lemma item_neg (s : list char) (i : Z) :
  1 <= i <= len s -> item s (- i) = item (rev s) (i - 1).
Proof.
  intros Hi. unfold item.
  destruct (Z.ltb_spec (- i) 0); [|lia].
  destruct (Z.ltb_spec (i - 1) 0); [lia|].
  unfold len in *. rewrite rev_nth by lia. f_equal. lia.
Qed.

Lemma suffix_as_prefix s t n k acc :
  0 <= k -> k + Z.of_nat n <= Z.min (len s) (len t) ->
  suffix_loop s t (seqZ (k + 1) (Z.of_nat n)) acc
  = prefix_loop (rev s) (rev t) (seqZ k (Z.of_nat n)) acc.
Proof.
  revert k acc. induction n as [|n IH]; intros k acc Hk Hn.
  - reflexivity.
  - rewrite (seqZ_cons (k + 1)), (seqZ_cons k) by lia.
    cbn [suffix_loop prefix_loop].
    destruct (Z.geb_spec (len s) (k + 1)); [|lia].
    destruct (Z.geb_spec (len t) (k + 1)); [|lia].
    rewrite !item_neg by lia.
    replace (k + 1 - 1) with k by lia. cbn [andb].
    destruct (item (rev s) k =? item (rev t) k)%N; [|reflexivity].
    replace (Z.pred (Z.of_nat (S n))) with (Z.of_nat n) by lia.
    replace (Z.succ (k + 1)) with (Z.succ k + 1) by lia.
    apply IH; lia.
Qed.

Lemma suffix_length_closed word dict_word :
  suffix_length word dict_word = suffix_run word dict_word.
Proof.
  unfold suffix_length, suffix_run, range_from.
  replace (Z.min (len word) (len dict_word) + 1 - 1)
    with (Z.of_nat (Nat.min (length word) (length dict_word)))
    by (unfold len; lia).
  rewrite (suffix_as_prefix word dict_word _ 0) by (unfold len; lia).
  replace (Z.of_nat (Nat.min (length word) (length dict_word)))
    with (Z.min (len (rev word)) (len (rev dict_word)))
    by (rewrite !len_rev; unfold len; lia).
  exact (prefix_loop_closed [] [] (rev word) (rev dict_word) 0 eq_refl).
Qed.

(** For a query word that is not empty the guards of the source are idle and
    its score is the score of the specification. *)
Lemma weighted_score_closed word dict_word :
  word <> [] -> weighted_score word dict_word = claimed_score word dict_word.
Proof.
  intros Hne.
  assert (1 <= len word) as Hlen.
  { destruct word; [contradiction|]. rewrite len_cons.
    pose proof (len_nonneg word). lia. }
  pose proof (len_nonneg dict_word) as Hd.
  unfold weighted_score, claimed_score, normalized_distance, prefix_bonus,
    suffix_bonus, length_ratio.
  cbv zeta.
  rewrite custom_distance_closed, prefix_length_closed, suffix_length_closed.
  destruct (Z.gtb_spec (Z.max (len word) (len dict_word)) 0); [|lia].
  replace (Z.max (len word) 1) with (len word) by lia.
  rewrite (float_mul_comm 0.4), !(float_mul_comm 0.2). reflexivity.
Qed.

(** C2. For a query word that is not empty, every candidate that passes the
    length gate is given the score [normalizedDistance - 0.4 * prefixBonus
    - 0.2 * suffixBonus - 0.2 * lengthRatio], less 0.3 when the prefix run is
    at least 3 and the suffix run at least 1, with the distance, the bonuses
    and the ratio as the specification defines them. *)
Theorem score_formula (order : list (list char)) (word dict_word : list char) :
  word <> [] ->
  (forall score,
     In (dict_word, score) (fold_left (suggestion_step word) order []) ->
     score = claimed_score word dict_word)
  /\ (In dict_word order -> length_gate word dict_word = false ->
      In (dict_word, claimed_score word dict_word)
         (fold_left (suggestion_step word) order [])).
Proof.
  intros Hne. rewrite suggestion_loop. simpl. unfold candidates. split.
  - intros score Hin. apply in_map_iff in Hin as (d & Heq & _).
    injection Heq as -> <-. apply weighted_score_closed, Hne.
  - intros Hin Hgate. apply in_map_iff. exists dict_word. split.
    + rewrite weighted_score_closed by exact Hne. reflexivity.
    + apply filter_In. split; [exact Hin|]. rewrite Hgate. reflexivity.
Qed.

Lemma score_formula_witness :
  In (kitab, claimed_score kitab_altered kitab)
     (fold_left (suggestion_step kitab_altered)
        [maktaba_normalized; kutub; kitab] []).
Proof.
  apply (score_formula [maktaba_normalized; kutub; kitab] kitab_altered kitab).
  - discriminate.
  - simpl. right. right. left. reflexivity.
  - vm_compute. reflexivity.
Defined.

(** * Further properties of the code *)

(** ** Normalizer *)

(** X1. [normalize_text] replaces character by character: the text keeps its
    length, and none of the five variant letters is left in it. *)
Theorem normalize_text_length_variants (text : list char) :
  len (normalize_text text) = len text
  /\ forall c, In c (normalize_text text) ->
       c <> ALEF_MAKSURA /\ c <> TA_MARBUTA /\ c <> ALEF_HAMZA_ABOVE
       /\ c <> ALEF_HAMZA_BELOW /\ c <> ALEF_MADDA.
Proof.
  rewrite normalize_text_map. split.
  - unfold len. rewrite length_map. reflexivity.
  - intros c Hc. apply in_map_iff in Hc as (c0 & <- & _). clear.
    unfold norm_char, ALEF_MAKSURA, YA, TA_MARBUTA, HA, ALEF_HAMZA_ABOVE,
      ALEF_HAMZA_BELOW, ALEF_MADDA, ALEF.
    repeat match goal with
    | |- context [(?a =? ?b)%N] =>
        is_var a; destruct (N.eqb_spec a b); subst; simpl
    end; repeat split; congruence.
Qed.

(** X2. The two steps of the preprocessing commute: removing the diacritics
    and then replacing the variants gives the same text as replacing the
    variants and then removing the diacritics. *)
Theorem normalize_remove_commute (text : list char) :
  normalize_text (remove_diacritics text)
  = remove_diacritics (normalize_text text).
Proof.
  rewrite !normalize_text_map. unfold remove_diacritics.
  induction text as [|c text IH]; simpl; [reflexivity|].
  assert (is_diacritic (norm_char c) = is_diacritic c) as ->.
  { clear. char_cases. }
  destruct (is_diacritic c); simpl; rewrite IH; reflexivity.
Qed.

(** ** Phonetic model *)

Lemma same_group_sym char_groups a b :
  same_group char_groups a b = same_group char_groups b a.
Proof.
  induction char_groups as [|g rest IH]; simpl; [reflexivity|].
  rewrite IH, (andb_comm (bool_decide (a ∈ g))). reflexivity.
Qed.

(** X3. The phonetic distance is symmetric. *)
Theorem phonetic_distance_sym (a b : char) :
  calculate_phonetic_distance a b = calculate_phonetic_distance b a.
Proof.
  unfold calculate_phonetic_distance.
  rewrite (N.eqb_sym a b), (same_group_sym _ a b). reflexivity.
Qed.

(** X4. [normalize_text] only merges letters that the phonetic model takes as
    close: a character is left as it is or replaced by one at phonetic
    distance 0.5 from it. *)
Theorem normalize_text_phonetic (c : char) :
  exists c', normalize_text [c] = [c']
    /\ (c' = c \/ calculate_phonetic_distance c c' = 0.5%float).
Proof.
  exists (norm_char c). split; [apply normalize_text_map|].
  unfold norm_char, ALEF_MAKSURA, YA, TA_MARBUTA, HA, ALEF_HAMZA_ABOVE,
    ALEF_HAMZA_BELOW, ALEF_MADDA, ALEF.
  repeat match goal with
  | |- context [(?a =? ?b)%N] =>
      is_var a; destruct (N.eqb_spec a b); subst; simpl
  end; first [left; reflexivity | right; vm_compute; reflexivity].
Qed.

(** ** Edit distance *)

Lemma levenshtein_nil_r s : levenshtein s [] = len s.
Proof. destruct s; reflexivity. Qed.

Lemma levenshtein_cons a s b t :
  levenshtein (a :: s) (b :: t)
  = Z.min (Z.min (levenshtein s (b :: t) + 1) (levenshtein (a :: s) t + 1))
          (levenshtein s t + (if (a =? b)%N then 0 else 1)).
Proof. reflexivity. Qed.

Lemma levenshtein_bounds s t :
  Z.abs (len s - len t) <= levenshtein s t <= Z.max (len s) (len t).
Proof.
  revert t. induction s as [|a s IHs]; intros t.
  - simpl levenshtein. pose proof (len_nonneg t).
    change (len []) with 0. lia.
  - induction t as [|b t IHt].
    + rewrite levenshtein_nil_r. pose proof (len_nonneg (a :: s)).
      change (len []) with 0. lia.
    + rewrite levenshtein_cons.
      pose proof (IHs (b :: t)). pose proof (IHs t).
      rewrite !len_cons in *. pose proof (len_nonneg s).
      pose proof (len_nonneg t). destruct (a =? b)%N; lia.
Qed.

(** X5. The edit distance lies between the difference of the two lengths and
    the greater of them. *)
Theorem levenshtein_between (s t : list char) :
  Z.abs (len s - len t) <= levenshtein s t
  /\ levenshtein s t <= Z.max (len s) (len t).
Proof. apply levenshtein_bounds. Qed.

(** X6. The edit distance is symmetric. *)
Theorem levenshtein_sym (s t : list char) :
  levenshtein s t = levenshtein t s.
Proof.
  revert t. induction s as [|a s IHs]; intros t.
  - rewrite levenshtein_nil_r. reflexivity.
  - induction t as [|b t IHt].
    + rewrite levenshtein_nil_r. reflexivity.
    + rewrite !levenshtein_cons, IHt, (IHs (b :: t)), (IHs t), (N.eqb_sym b a).
      lia.
Qed.

Lemma levenshtein_self s : levenshtein s s = 0.
Proof.
  induction s as [|a s IH]; [reflexivity|].
  rewrite levenshtein_cons, N.eqb_refl, IH.
  pose proof (levenshtein_bounds s (a :: s)).
  pose proof (levenshtein_bounds (a :: s) s). lia.
Qed.

(** X7. The edit distance is 0 exactly between a string and itself. *)
Theorem levenshtein_zero (s t : list char) :
  levenshtein s t = 0 <-> s = t.
Proof.
  revert t. induction s as [|a s IHs]; intros t.
  - simpl levenshtein. destruct t; [tauto|].
    rewrite len_cons. pose proof (len_nonneg t). split; [lia|discriminate].
  - induction t as [|b t IHt].
    + rewrite levenshtein_nil_r, len_cons. pose proof (len_nonneg s).
      split; [lia|discriminate].
    + rewrite levenshtein_cons.
      pose proof (levenshtein_bounds s (b :: t)).
      pose proof (levenshtein_bounds (a :: s) t).
      pose proof (levenshtein_bounds s t).
      destruct (N.eqb_spec a b) as [-> | Hne]; split.
      * intros H2. f_equal. apply IHs. lia.
      * intros [= ->]. assert (levenshtein t t = 0) by (apply IHs; reflexivity).
        lia.
      * lia.
      * intros [= ? ?]. contradiction.
Qed.

(** ** Adjusted distance *)

Lemma phonetic_sum_self word acc :
  fold_left phonetic_term (combine word word) acc = acc.
Proof.
  revert acc. induction word as [|c word IH]; intros acc; simpl; [reflexivity|].
  unfold phonetic_term at 2. simpl. rewrite N.eqb_refl. simpl. apply IH.
Qed.

(** X8. A word is at adjusted distance 0 from itself. *)
Theorem custom_distance_self (word : list char) :
  custom_distance word word = 0%float.
Proof.
  rewrite custom_distance_closed, levenshtein_self.
  unfold phonetic_sum. rewrite phonetic_sum_self. vm_compute. reflexivity.
Qed.

Lemma SFcompare_antisym x y :
  SFcompare y x = option_map CompOpp (SFcompare x y).
Proof.
  destruct x as [sx|sx| |sx mx ex], y as [sy|sy| |sy my ey];
    try destruct sx; try destruct sy; simpl; try reflexivity;
    rewrite (Z.compare_antisym ex ey); destruct (ex ?= ey); simpl;
    try reflexivity;
    rewrite (Pos.compare_cont_antisym mx my Eq); reflexivity.
Qed.

Lemma float_ltb_asym (x y : float) :
  PrimFloat.ltb x y = true -> PrimFloat.ltb y x = false.
Proof.
  rewrite !ltb_spec. unfold SFltb. rewrite (SFcompare_antisym (Prim2SF x)).
  destruct (SFcompare (Prim2SF x) (Prim2SF y)) as [[]|]; simpl;
    congruence.
Qed.

(** X9. The adjusted distance is never negative: it is 0 or greater than 0,
    and never less than 0. *)
Theorem custom_distance_nonneg (word1 word2 : list char) :
  (custom_distance word1 word2 = 0%float
   \/ PrimFloat.ltb 0 (custom_distance word1 word2) = true)
  /\ PrimFloat.ltb (custom_distance word1 word2) 0 = false.
Proof.
  unfold custom_distance. cbv zeta. unfold max0.
  destruct (PrimFloat.ltb 0 _) eqn:E.
  - split; [right; exact E | apply float_ltb_asym, E].
  - split; [left; reflexivity | vm_compute; reflexivity].
Qed.

(** ** Length gate *)

(** X10. A vocabulary word whose length differs from that of the query by at
    most 1 always passes the length gate, and one whose length differs by
    more than 3 never does. *)
Theorem length_gate_range (word dict_word : list char) :
  (Z.abs (len word - len dict_word) <= 1 -> length_gate word dict_word = false)
  /\ (Z.abs (len word - len dict_word) > 3 -> length_gate word dict_word = true).
Proof.
  unfold length_gate. pose proof (len_nonneg word) as Hw.
  pose proof (Z.div_pos (len word) 2 Hw ltac:(lia)) as Hdiv.
  split; intros H.
  - rewrite Z.gtb_ltb. apply Z.ltb_ge. lia.
  - rewrite Z.gtb_ltb. apply Z.ltb_lt. lia.
Qed.

Lemma length_gate_range_witness :
  length_gate kitab_altered kutub = false
  /\ length_gate kutub (kitab ++ kitab) = true.
Proof.
  split.
  - apply (proj1 (length_gate_range kitab_altered kutub)). vm_compute.
    discriminate.
  - apply (proj2 (length_gate_range kutub (kitab ++ kitab))). vm_compute.
    reflexivity.
Defined.

(** ** Suggestions: order, number and completeness *)

Lemma get_suggestions_eq order word k :
  get_suggestions order word k
  = List.map fst (slice_to (sort_by_score (candidates word order)) k).
Proof. unfold get_suggestions. rewrite suggestion_loop. reflexivity. Qed.

Lemma insert_by_score_HdRel x y rest :
  PrimFloat.ltb (snd x) (snd y) = false ->
  HdRel (fun a b => PrimFloat.ltb (snd b) (snd a) = false) y rest ->
  HdRel (fun a b => PrimFloat.ltb (snd b) (snd a) = false) y
    (insert_by_score x rest).
Proof.
  intros Hxy Hrel. destruct rest as [|z rest]; simpl.
  - constructor. exact Hxy.
  - destruct (PrimFloat.ltb (snd x) (snd z)); constructor.
    + exact Hxy.
    + inversion Hrel. assumption.
Qed.

Lemma insert_by_score_sorted x sorted :
  Sorted (fun a b => PrimFloat.ltb (snd b) (snd a) = false) sorted ->
  Sorted (fun a b => PrimFloat.ltb (snd b) (snd a) = false)
    (insert_by_score x sorted).
Proof.
  induction sorted as [|y rest IH]; intros Hs; simpl.
  - constructor; constructor.
  - apply Sorted_inv in Hs as [Hrest Hhd].
    destruct (PrimFloat.ltb (snd x) (snd y)) eqn:E.
    + constructor; [constructor; assumption|].
      constructor. apply float_ltb_asym, E.
    + constructor; [apply IH, Hrest|].
      apply insert_by_score_HdRel; assumption.
Qed.

Lemma sort_by_score_sorted suggestions :
  Sorted (fun a b => PrimFloat.ltb (snd b) (snd a) = false)
    (sort_by_score suggestions).
Proof.
  unfold sort_by_score.
  assert (forall acc,
    Sorted (fun a b => PrimFloat.ltb (snd b) (snd a) = false) acc ->
    Sorted (fun a b => PrimFloat.ltb (snd b) (snd a) = false)
      (fold_left (fun sorted x => insert_by_score x sorted) suggestions acc))
    as H.
  { induction suggestions as [|x l IH]; intros acc Hacc; simpl; [exact Hacc|].
    apply IH, insert_by_score_sorted, Hacc. }
  apply H. constructor.
Qed.

Lemma Sorted_take {A} (R : A -> A -> Prop) (l : list A) n :
  Sorted R l -> Sorted R (take n l).
Proof.
  revert n. induction l as [|x l IH]; intros n Hs; destruct n; simpl;
    try constructor.
  - apply IH. apply Sorted_inv in Hs. tauto.
  - apply Sorted_inv in Hs as [_ Hhd]. destruct l; destruct n; simpl;
      constructor. inversion Hhd. assumption.
Qed.

Lemma Sorted_adjacent {A} (R : A -> A -> Prop) (l1 l2 : list A) x y :
  Sorted R (l1 ++ x :: y :: l2) -> R x y.
Proof.
  induction l1 as [|z l1 IH]; simpl; intros Hs.
  - apply Sorted_inv in Hs as [_ Hhd]. inversion Hhd. assumption.
  - apply IH. apply Sorted_inv in Hs. tauto.
Qed.

Lemma slice_to_take {A} (l : list A) k :
  exists n, slice_to l k = take n l.
Proof. unfold slice_to. destruct (k <? 0); eexists; reflexivity. Qed.

Lemma candidates_scored word order e :
  In e (candidates word order) -> snd e = weighted_score word (fst e).
Proof.
  unfold candidates. intros H. apply in_map_iff in H as (d & <- & _).
  reflexivity.
Qed.

(** X11. The suggestions come in order of score: a suggestion never has a
    score less than that of the suggestion just before it. *)
Theorem suggestions_ascending (order : list (list char)) (word : list char)
    (k : Z) (before after : list (list char)) (d1 d2 : list char) :
  get_suggestions order word k = before ++ d1 :: d2 :: after ->
  PrimFloat.ltb (weighted_score word d2) (weighted_score word d1) = false.
Proof.
  rewrite get_suggestions_eq.
  destruct (slice_to_take (sort_by_score (candidates word order)) k)
    as (n & ->).
  intros Heq.
  assert (forall e, In e (take n (sort_by_score (candidates word order))) ->
            snd e = weighted_score word (fst e)) as Hscore.
  { intros e He. apply (candidates_scored word order).
    apply list_elem_of_In.
    rewrite <- (sort_by_score_perm (candidates word order)).
    eapply elem_of_sublist; [apply list_elem_of_In, He | apply sublist_take]. }
  pose proof (Sorted_take _ _ n (sort_by_score_sorted (candidates word order)))
    as Hsorted.
  revert Heq Hscore Hsorted.
  generalize (take n (sort_by_score (candidates word order))). intros T Heq.
  apply map_eq_app in Heq as (T1 & T' & -> & _ & Heq).
  apply map_eq_cons in Heq as (e1 & T'' & -> & <- & Heq).
  apply map_eq_cons in Heq as (e2 & T2 & -> & <- & _).
  intros Hscore Hsorted. apply Sorted_adjacent in Hsorted.
  rewrite <- (Hscore e1), <- (Hscore e2); [exact Hsorted| |];
    apply in_or_app; right; simpl; tauto.
Qed.

Lemma suggestions_ascending_witness :
  PrimFloat.ltb (weighted_score kitab_altered kutub)
    (weighted_score kitab_altered kitab) = false.
Proof.
  apply (suggestions_ascending [maktaba_normalized; kutub; kitab]
           kitab_altered 3 [] [maktaba_normalized] kitab kutub).
  vm_compute. reflexivity.
Defined.

Lemma sort_by_score_length suggestions :
  length (sort_by_score suggestions) = length suggestions.
Proof. apply Permutation_length, sort_by_score_perm. Qed.

Lemma candidates_length word order :
  length (candidates word order)
  = length (List.filter (fun d => negb (length_gate word d)) order).
Proof. unfold candidates. apply length_map. Qed.

(** X12. The number of suggestions is exact: with [n] vocabulary words
    passing the length gate, [get_suggestions] returns [min(k, n)] words for
    [k >= 0] and [max(0, n + k)] words for a negative [k]. *)
Theorem suggestions_count (order : list (list char)) (word : list char)
    (k : Z) :
  Z.of_nat (length (get_suggestions order word k))
  = let n :=
      Z.of_nat (length (List.filter
                          (fun d => negb (length_gate word d)) order)) in
    if k <? 0 then Z.max 0 (n + k) else Z.min k n.
Proof.
  cbv zeta. rewrite get_suggestions_eq, length_map, <- candidates_length,
    <- (sort_by_score_length (candidates word order)).
  unfold slice_to. destruct (Z.ltb_spec k 0); rewrite length_take; lia.
Qed.

(** X13. Nothing is lost when [k] is large enough: if at most [k] vocabulary
    words pass the length gate, the suggestions are exactly those words, each
    once, in some order. *)
Theorem suggestions_complete (order : list (list char)) (word : list char)
    (k : Z) :
  Z.of_nat (length (List.filter
                      (fun d => negb (length_gate word d)) order)) <= k ->
  get_suggestions order word k
  ≡ₚ List.filter (fun d => negb (length_gate word d)) order.
Proof.
  intros Hk. rewrite get_suggestions_eq, <- candidates_fst.
  rewrite <- candidates_length,
    <- (sort_by_score_length (candidates word order)) in Hk.
  unfold slice_to. destruct (Z.ltb_spec k 0); [lia|].
  rewrite take_ge by lia.
  apply Permutation_map, sort_by_score_perm.
Qed.

Lemma suggestions_complete_witness :
  get_suggestions [maktaba_normalized; kutub; kitab] kitab_altered 3
  ≡ₚ List.filter (fun d => negb (length_gate kitab_altered d))
       [maktaba_normalized; kutub; kitab].
Proof.
  apply (suggestions_complete [maktaba_normalized; kutub; kitab]
           kitab_altered 3).
  vm_compute. discriminate.
Defined.

(** ** Checker: which tokens are reported *)

Lemma split_from_tokens current text token :
  Forall (fun c => is_space c = false) current ->
  In token (split_from current text) ->
  token <> [] /\ Forall (fun c => is_space c = false) token.
Proof.
  revert current. induction text as [|c rest IH]; intros current Hcur Htok.
  - simpl in Htok. destruct current as [|x current]; [contradiction|].
    destruct Htok as [<- | []]. split.
    + intros Hnil. apply (f_equal (@length _)) in Hnil.
      rewrite length_rev in Hnil. discriminate.
    + apply Forall_rev, Hcur.
  - simpl in Htok. destruct (is_space c) eqn:Ec.
    + destruct current as [|x current].
      * apply (IH []); [constructor | exact Htok].
      * destruct Htok as [<- | Htok].
        -- split.
           ++ intros Hnil. apply (f_equal (@length _)) in Hnil.
              rewrite length_rev in Hnil. discriminate.
           ++ apply Forall_rev, Hcur.
        -- apply (IH []); [constructor | exact Htok].
    + apply (IH (c :: current)); [constructor; assumption | exact Htok].
Qed.

Lemma token_canonical text token :
  In token (str_split (preprocess text)) ->
  Forall (fun c => canonical_char c = true) token.
Proof.
  intros Htok. apply Forall_forall. intros c Hc.
  apply list_elem_of_In in Hc.
  pose proof (preprocess_canonical text) as Hcan.
  rewrite Forall_forall in Hcan. apply Hcan, list_elem_of_In.
  eapply str_split_chars; eassumption.
Qed.

Lemma script_clean_nonempty token :
  existsb is_arabic token = true ->
  nonempty (List.filter is_arabic token) = true.
Proof.
  induction token as [|c token IH]; simpl; [discriminate|].
  destruct (is_arabic c); simpl; [reflexivity | exact IH].
Qed.

(** Once a token that is to be reported has its entry, the rest of the loop
    leaves the entry as it is. *)
Lemma check_loop_keeps self order words misspelled token :
  misspelled !! token
    = Some (get_suggestions order (List.filter is_arabic token) 3) ->
  fold_left (check_word self order) words misspelled !! token
    = Some (get_suggestions order (List.filter is_arabic token) 3).
Proof.
  revert misspelled. induction words as [|w words IH]; intros m Hm; simpl;
    [exact Hm|].
  apply IH. unfold check_word.
  destruct (negb (nonempty w) || negb (existsb is_arabic w)); [exact Hm|].
  destruct (nonempty (List.filter is_arabic w)
            && negb (bool_decide (List.filter is_arabic w ∈ word_list self)));
    [|exact Hm].
  destruct (decide (w = token)) as [-> | Hne].
  - apply lookup_insert_eq.
  - rewrite lookup_insert_ne by exact Hne. exact Hm.
Qed.

Lemma check_loop_reports self order words misspelled token :
  In token words -> existsb is_arabic token = true ->
  ~ (List.filter is_arabic token ∈ word_list self) ->
  fold_left (check_word self order) words misspelled !! token
    = Some (get_suggestions order (List.filter is_arabic token) 3).
Proof.
  revert misspelled. induction words as [|w words IH];
    intros m Hin Har Hnot; [contradiction|].
  simpl. destruct (decide (w = token)) as [-> | Hne].
  - apply check_loop_keeps. unfold check_word.
    destruct token as [|c token]; [discriminate|].
    rewrite Har, (script_clean_nonempty _ Har). simpl.
    rewrite bool_decide_eq_false_2 by exact Hnot. simpl.
    apply lookup_insert_eq.
  - destruct Hin as [-> | Hin]; [contradiction|]. apply IH; assumption.
Qed.

(** X14. What [check_text] reports: a string is a key of the mapping exactly
    when it is a token of the preprocessed text that has a script character
    and whose clean word is not in the vocabulary, and its value is then the
    list of suggestions for the clean word, with at most three entries asked
    for. *)
Theorem check_text_reports (self : ArabicSpellChecker)
    (order : list (list char)) (text token : list char)
    (suggestions : list (list char)) :
  check_text self order text !! token = Some suggestions
  <-> In token (str_split (preprocess text))
      /\ existsb is_arabic token = true
      /\ ~ (List.filter is_arabic token ∈ word_list self)
      /\ suggestions = get_suggestions order (List.filter is_arabic token) 3.
Proof.
  split.
  - apply check_text_lookup.
  - intros (Hin & Har & Hnot & ->). apply check_loop_reports; assumption.
Qed.

(** X15. Whatever [check_text] reports for a token, the list has at most
    three suggestions, each of them a word of the vocabulary, none twice. *)
Theorem check_text_values (self : ArabicSpellChecker)
    (order : list (list char)) (text token : list char)
    (suggestions : list (list char)) :
  iterates self order ->
  check_text self order text !! token = Some suggestions ->
  (length suggestions <= 3)%nat
  /\ NoDup suggestions
  /\ forall w, w ∈ suggestions -> w ∈ word_list self.
Proof.
  intros Hit H. apply check_text_lookup in H as (_ & _ & _ & ->).
  split; [|split].
  - pose proof (slice_to_length
                  (sort_by_score
                     (candidates (List.filter is_arabic token) order)) 3
                  ltac:(lia)) as Hlen.
    rewrite get_suggestions_eq, length_map. lia.
  - destruct (get_suggestions_sublist order (List.filter is_arabic token) 3)
      as (words & Hperm & Hsub).
    eapply sublist_NoDup; [|exact Hsub].
    rewrite Hperm. apply NoDup_ListNoDup, List.NoDup_filter, NoDup_ListNoDup.
    apply (iterates_NoDup self), Hit.
  - intros w Hw. apply get_suggestions_In in Hw as [Hw _].
    apply (iterates_elem self order w Hit), Hw.
Qed.

Lemma check_text_values_witness :
  (length [kitab; kutub; maktaba_normalized] <= 3)%nat
  /\ NoDup [kitab; kutub; maktaba_normalized]
  /\ forall w, w ∈ [kitab; kutub; maktaba_normalized] ->
       w ∈ word_list scenario.
Proof.
  apply (check_text_values scenario (elements (word_list scenario))
           kitab_altered kitab_altered [kitab; kutub; maktaba_normalized]
           (iterates_elements scenario)).
  vm_compute. reflexivity.
Defined.

Lemma check_text_none_known self order text :
  (forall token, In token (str_split (preprocess text)) ->
     existsb is_arabic token = true ->
     List.filter is_arabic token ∈ word_list self) ->
  check_text self order text = ∅.
Proof.
  intros Hall. apply map_empty. intros token.
  destruct (check_text self order text !! token) as [l|] eqn:E; [|reflexivity].
  apply check_text_lookup in E as (Hin & Har & Hnot & _).
  exfalso. apply Hnot, Hall; assumption.
Qed.

(** X16. [check_text] returns the empty mapping exactly when every token with
    a script character has its clean word in the vocabulary. *)
Theorem check_text_empty_iff (self : ArabicSpellChecker)
    (order : list (list char)) (text : list char) :
  check_text self order text = ∅
  <-> forall token, In token (str_split (preprocess text)) ->
        existsb is_arabic token = true ->
        List.filter is_arabic token ∈ word_list self.
Proof.
  split; [|apply check_text_none_known].
  intros Hempty token Hin Har.
  destruct (decide (List.filter is_arabic token ∈ word_list self))
    as [Hyes | Hno]; [exact Hyes|].
  pose proof (check_loop_reports self order _ ∅ token Hin Har Hno) as H.
  fold (preprocess text) in H. unfold check_text in Hempty.
  fold (preprocess text) in Hempty. cbv zeta in Hempty.
  rewrite Hempty, lookup_empty in H. discriminate.
Qed.

(** X17. With an empty vocabulary, as after a word list file that is not
    found, every token with a script character is reported, and with no
    suggestion. *)
Theorem empty_vocabulary_reports_all (self : ArabicSpellChecker)
    (order : list (list char)) (text token : list char) :
  iterates self order -> word_list self = ∅ ->
  In token (str_split (preprocess text)) ->
  existsb is_arabic token = true ->
  check_text self order text !! token = Some [].
Proof.
  intros Hit Hempty Hin Har.
  assert (order = []) as ->.
  { apply Permutation_nil_r. rewrite Hit, Hempty, elements_empty.
    reflexivity. }
  rewrite <- (get_suggestions_nil [] (List.filter is_arabic token) 3 eq_refl).
  apply check_loop_reports; [exact Hin | exact Har |].
  rewrite Hempty. apply not_elem_of_empty.
Qed.

Lemma empty_vocabulary_reports_all_witness :
  check_text (new_checker None) [] kitab !! kitab = Some [].
Proof.
  apply (empty_vocabulary_reports_all (new_checker None) [] kitab kitab).
  - unfold iterates. vm_compute. constructor.
  - vm_compute. reflexivity.
  - vm_compute. left. reflexivity.
  - vm_compute. reflexivity.
Defined.

(** X18. The keys of the mapping are tokens of the preprocessed text, not of
    the text as typed: a key is not empty, has no white space, and has no
    diacritic and no variant letter left, the preprocessing leaving it as it
    is. *)
Theorem check_text_keys (self : ArabicSpellChecker)
    (order : list (list char)) (text key : list char)
    (suggestions : list (list char)) :
  check_text self order text !! key = Some suggestions ->
  key <> []
  /\ Forall (fun c => is_space c = false) key
  /\ preprocess key = key.
Proof.
  intros H. apply check_text_lookup in H as (Hin & _).
  destruct (split_from_tokens [] (preprocess text) key (List.Forall_nil _) Hin)
    as [Hne Hsp].
  repeat split; [exact Hne | exact Hsp |].
  apply (token_preprocessed text), Hin.
Qed.

Lemma check_text_keys_witness :
  kitab_altered <> []
  /\ Forall (fun c => is_space c = false) kitab_altered
  /\ preprocess kitab_altered = kitab_altered.
Proof.
  apply (check_text_keys scenario (elements (word_list scenario))
           kitab_altered kitab_altered [kitab; kutub; maktaba_normalized]).
  vm_compute. reflexivity.
Defined.

Lemma filter_fixed_forall {A} (f : A -> bool) (l : list A) :
  Forall (fun x => f x = true) (List.filter f l).
Proof.
  apply Forall_forall. intros x Hx.
  apply list_elem_of_In, filter_In in Hx. tauto.
Qed.

Lemma filter_all {A} (f : A -> bool) (l : list A) :
  Forall (fun x => f x = true) l -> List.filter f l = l.
Proof.
  induction 1 as [|x l Hx _ IH]; simpl; [reflexivity|].
  rewrite Hx, IH. reflexivity.
Qed.

(** X19. A vocabulary entry that the preprocessing or the cleaning would
    change (one with a diacritic, a variant letter, or a character outside
    the script range such as a space) is the clean word of no token of any
    text, so that no query is recognized through it. *)
Theorem unreachable_entry (w text token : list char) :
  preprocess w <> w \/ List.filter is_arabic w <> w ->
  In token (str_split (preprocess text)) ->
  List.filter is_arabic token <> w.
Proof.
  intros Hw Hin Heq. subst w. destruct Hw as [Hw | Hw]; apply Hw.
  - apply preprocess_fixed. apply Forall_forall. intros c Hc.
    apply list_elem_of_In, filter_In in Hc as [Hc _].
    pose proof (token_canonical text token Hin) as Hcan.
    rewrite Forall_forall in Hcan. apply Hcan, list_elem_of_In, Hc.
  - apply filter_all, filter_fixed_forall.
Qed.

Lemma unreachable_entry_witness :
  List.filter is_arabic kutub <> kataba_vocalized.
Proof.
  apply (unreachable_entry kataba_vocalized kataba_vocalized kutub).
  - left. vm_compute. discriminate.
  - vm_compute. left. reflexivity.
Defined.

(** ** A one-word query against the two ways of loading the vocabulary *)

Lemma arabic_not_space c : is_arabic c = true -> is_space c = false.
Proof.
  unfold is_arabic, is_space. intros H.
  apply andb_true_iff in H as [H1 H2].
  apply N.leb_le in H1, H2.
  rewrite !orb_false_iff, !andb_false_iff, !N.leb_gt, !N.eqb_neq. lia.
Qed.

Lemma norm_char_arabic c : is_arabic c = true -> is_arabic (norm_char c) = true.
Proof. unfold is_arabic. char_cases. Qed.

Lemma split_from_no_space current text :
  Forall (fun c => is_space c = false) text ->
  split_from current text
  = match rev current ++ text with [] => [] | _ => [rev current ++ text] end.
Proof.
  intros H. revert current.
  induction H as [|c text Hc _ IH]; intros current.
  - simpl. rewrite app_nil_r. destruct current as [|x current];
      [reflexivity|].
    simpl. destruct (rev current ++ [x]) eqn:E; [|reflexivity].
    apply app_eq_nil in E as [_ E]. discriminate.
  - simpl. rewrite Hc, IH. simpl. rewrite <- app_assoc. reflexivity.
Qed.

(** The check of a text that is one word of script letters without
    diacritics. *)
Lemma check_text_one_word self order w :
  forallb (fun c => is_arabic c && negb (is_diacritic c)) w = true ->
  w <> [] ->
  check_text self order w
  = if bool_decide (normalize_text w ∈ word_list self) then ∅
    else {[ normalize_text w := get_suggestions order (normalize_text w) 3 ]}.
Proof.
  intros Hw Hne.
  assert (remove_diacritics w = w) as Hrd.
  { apply filter_all. apply Forall_forall. intros c Hc.
    rewrite forallb_forall in Hw. apply list_elem_of_In, Hw in Hc.
    apply andb_true_iff in Hc. tauto. }
  assert (Forall (fun c => is_arabic c = true) (normalize_text w)) as Har.
  { rewrite normalize_text_map. apply Forall_forall. intros c Hc.
    apply list_elem_of_In, in_map_iff in Hc as (c0 & <- & Hc0).
    rewrite forallb_forall in Hw. apply Hw in Hc0.
    apply andb_true_iff in Hc0 as [Hc0 _]. apply norm_char_arabic, Hc0. }
  assert (exists c rest, normalize_text w = c :: rest) as (c & rest & Hcons).
  { destruct w as [|c0 w]; [contradiction|]. rewrite normalize_text_map.
    simpl. eauto. }
  assert (List.filter is_arabic (normalize_text w) = normalize_text w)
    as Hclean by (apply filter_all, Har).
  assert (existsb is_arabic (normalize_text w) = true) as Hscript.
  { rewrite Hcons in *. simpl. apply Forall_inv in Har. rewrite Har.
    reflexivity. }
  assert (nonempty (normalize_text w) = true) as Hnonempty
    by (rewrite Hcons; reflexivity).
  assert (Forall (fun a => is_space a = false) (normalize_text w)) as Hsp.
  { eapply Forall_impl; [exact Har|]. intros a Ha.
    apply arabic_not_space, Ha. }
  unfold check_text. cbv zeta. rewrite Hrd. unfold str_split.
  rewrite (split_from_no_space [] _ Hsp).
  change (rev [] ++ normalize_text w) with (normalize_text w).
  assert (match normalize_text w with
          | [] => []
          | _ :: _ => [normalize_text w]
          end = [normalize_text w]) as ->
    by (rewrite Hcons; reflexivity).
  cbn [fold_left]. unfold check_word.
  rewrite Hclean, Hscript, Hnonempty. cbn [negb orb andb].
  destruct (bool_decide (normalize_text w ∈ word_list self)); reflexivity.
Qed.

(** X20. With the vocabulary normalized at load ([src/main.py]), a one-word
    query of script letters without diacritics is accepted exactly when some
    line of the word list has the same normalized form. *)
Theorem one_word_normalized_vocabulary (file : option (list char))
    (order : list (list char)) (w : list char) :
  forallb (fun c => is_arabic c && negb (is_diacritic c)) w = true ->
  w <> [] ->
  check_text (new_checker file) order w = ∅
  <-> exists v, v ∈ load_word_list file
        /\ normalize_text v = normalize_text w.
Proof.
  intros Hw Hne. rewrite (check_text_one_word _ _ _ Hw Hne).
  unfold new_checker, init. simpl word_list.
  destruct (bool_decide _) eqn:E.
  - apply bool_decide_eq_true in E. apply elem_of_map_1 in E as (v & Hv & Hin).
    split; [|reflexivity]. intros _. exists v. split; [exact Hin|].
    symmetry. exact Hv.
  - apply bool_decide_eq_false in E. split.
    + intros Habs. apply (f_equal (fun m => m !! normalize_text w)) in Habs.
      rewrite lookup_singleton_eq, lookup_empty in Habs. discriminate.
    + intros (v & Hin & Hv). exfalso. apply E. rewrite <- Hv.
      apply elem_of_map_2, Hin.
Qed.

Lemma one_word_normalized_vocabulary_witness :
  check_text (new_checker (Some (maktaba ++ [0xA%N]))) [maktaba_normalized]
    maktaba = ∅
  <-> exists v, v ∈ load_word_list (Some (maktaba ++ [0xA%N]))
        /\ normalize_text v = normalize_text maktaba.
Proof.
  apply (one_word_normalized_vocabulary (Some (maktaba ++ [0xA%N]))
           [maktaba_normalized] maktaba).
  - vm_compute. reflexivity.
  - discriminate.
Defined.

(** X21. With the vocabulary kept as loaded
    ([src/arabic_spell_checker_fixed.py]), such a query is accepted exactly
    when its normalized form is itself a line of the word list: a listed word
    with a variant letter is reported unless its normalized spelling is
    listed too. *)
Theorem one_word_unnormalized_vocabulary (file : option (list char))
    (order : list (list char)) (w : list char) :
  forallb (fun c => is_arabic c && negb (is_diacritic c)) w = true ->
  w <> [] ->
  check_text (new_checker_unnormalized file) order w = ∅
  <-> normalize_text w ∈ load_word_list file.
Proof.
  intros Hw Hne. rewrite (check_text_one_word _ _ _ Hw Hne).
  unfold new_checker_unnormalized. simpl word_list.
  destruct (bool_decide _) eqn:E.
  - apply bool_decide_eq_true in E. tauto.
  - apply bool_decide_eq_false in E. split; [|contradiction].
    intros Habs. apply (f_equal (fun m => m !! normalize_text w)) in Habs.
    rewrite lookup_singleton_eq, lookup_empty in Habs. discriminate.
Qed.

Lemma one_word_unnormalized_vocabulary_witness :
  check_text (new_checker_unnormalized (Some (maktaba ++ [0xA%N])))
    [maktaba] maktaba = ∅
  <-> normalize_text maktaba ∈ load_word_list (Some (maktaba ++ [0xA%N])).
Proof.
  apply (one_word_unnormalized_vocabulary (Some (maktaba ++ [0xA%N]))
           [maktaba] maktaba).
  - vm_compute. reflexivity.
  - discriminate.
Defined.

(** ** Loading the word list *)

Lemma lstrip_head s c : head (lstrip s) = Some c -> is_space c = false.
Proof.
  induction s as [|x s IH]; simpl; [discriminate|].
  destruct (is_space x) eqn:E; [exact IH|].
  simpl. intros [= <-]. exact E.
Qed.

Lemma lstrip_suffix s : exists p, s = p ++ lstrip s.
Proof.
  induction s as [|x s [p IH]]; simpl.
  - exists []. reflexivity.
  - destruct (is_space x).
    + exists (x :: p). simpl. rewrite <- IH. reflexivity.
    + exists []. reflexivity.
Qed.

Lemma last_rev_head {A} (l : list A) : last (rev l) = head l.
Proof. destruct l as [|x l]; [reflexivity|]. simpl. apply last_snoc. Qed.

Lemma head_rev_last {A} (l : list A) : head (rev l) = last l.
Proof. rewrite <- (rev_involutive l) at 2. symmetry. apply last_rev_head. Qed.

Lemma strip_ends s :
  (forall c, head (strip s) = Some c -> is_space c = false)
  /\ (forall c, last (strip s) = Some c -> is_space c = false).
Proof.
  unfold strip. split; intros c Hc.
  - rewrite head_rev_last in Hc.
    destruct (lstrip_suffix (rev (lstrip s))) as [p Hp].
    assert (last (rev (lstrip s)) = Some c) as Hlast.
    { rewrite Hp, last_app, Hc. reflexivity. }
    rewrite last_rev_head in Hlast. apply (lstrip_head s), Hlast.
  - rewrite last_rev_head in Hc. apply (lstrip_head _ _ Hc).
Qed.

(** X22. Every word that [load_word_list] returns is the stripped form of a
    line of the file, is not empty, and neither begins nor ends with white
    space; without the file the vocabulary is empty. *)
Theorem loaded_words_stripped (file : option (list char)) (w : list char) :
  w ∈ load_word_list file ->
  (exists content line,
     file = Some content /\ In line (file_lines content) /\ w = strip line)
  /\ w <> []
  /\ (forall c, head w = Some c -> is_space c = false)
  /\ (forall c, last w = Some c -> is_space c = false).
Proof.
  destruct file as [content|]; simpl; [|intros H; inversion H].
  intros H. apply elem_of_list_to_set, list_elem_of_In, in_map_iff in H
    as (line & <- & Hline).
  apply filter_In in Hline as [Hline Hne].
  split; [exists content, line; auto|]. split.
  - intros Hnil. rewrite Hnil in Hne. discriminate.
  - apply strip_ends.
Qed.

Lemma loaded_words_stripped_witness :
  kitab <> [].
Proof.
  apply (loaded_words_stripped
           (Some ([0x20%N] ++ kitab ++ [0x20; 0xA; 0xA]%N ++ kutub)) kitab).
  vm_compute. reflexivity.
Defined.

(** ** Presentation: the ordered mapping and the message *)

Lemma dict_set_keys key value items x :
  In x (List.map fst (dict_set key value items)) ->
  x = key \/ In x (List.map fst items).
Proof.
  induction items as [|[k v] rest IH]; simpl.
  - intros [<- | []]. left. reflexivity.
  - destruct (bool_decide (k = key)); simpl.
    + intros [<- | H]; [right; left; reflexivity | right; right; exact H].
    + intros [<- | H]; [right; left; reflexivity|].
      destruct (IH H) as [-> | H']; [left; reflexivity | right; right; exact H'].
Qed.

Lemma dict_set_NoDup key value items :
  NoDup (List.map fst items) ->
  NoDup (List.map fst (dict_set key value items)).
Proof.
  induction items as [|[k v] rest IH]; simpl; intros Hnd.
  - apply NoDup_singleton.
  - apply NoDup_cons in Hnd as [Hk Hrest].
    destruct (bool_decide (k = key)) eqn:E; simpl.
    + apply NoDup_cons. split; assumption.
    + apply NoDup_cons. split; [|apply IH, Hrest].
      intros Hin. apply list_elem_of_In, dict_set_keys in Hin as [-> | Hin].
      * apply bool_decide_eq_false in E. apply E. reflexivity.
      * apply Hk, list_elem_of_In, Hin.
Qed.

Lemma dict_set_to_map key value items :
  list_to_map (dict_set key value items)
  =@{gmap (list char) (list (list char))}
  <[ key := value ]> (list_to_map items).
Proof.
  induction items as [|[k v] rest IH]; simpl; [reflexivity|].
  destruct (bool_decide (k = key)) eqn:E; simpl.
  - apply bool_decide_eq_true in E as ->. rewrite insert_insert_eq.
    reflexivity.
  - apply bool_decide_eq_false in E. rewrite IH.
    apply insert_insert_ne. congruence.
Qed.

Lemma check_items_loop self order words items :
  NoDup (List.map fst items) ->
  NoDup (List.map fst (fold_left (check_word_items self order) words items))
  /\ list_to_map (fold_left (check_word_items self order) words items)
     = fold_left (check_word self order) words (list_to_map items).
Proof.
  revert items. induction words as [|w words IH]; intros items Hnd; simpl.
  - split; [exact Hnd | reflexivity].
  - unfold check_word_items at 2 4, check_word at 2.
    destruct (negb (nonempty w) || negb (existsb is_arabic w));
      [apply IH, Hnd|].
    destruct (nonempty (List.filter is_arabic w)
              && negb (bool_decide (List.filter is_arabic w ∈ word_list self)));
      [|apply IH, Hnd].
    rewrite <- dict_set_to_map. apply IH, dict_set_NoDup, Hnd.
Qed.

(** X23. The items of the mapping, in the order in which [check_spelling]
    reads them, have distinct keys and hold exactly the entries of the
    mapping: a token met again in the text gives no second item. *)
Theorem check_text_items_mapping (self : ArabicSpellChecker)
    (order : list (list char)) (text : list char) :
  NoDup (List.map fst (check_text_items self order text))
  /\ list_to_map (check_text_items self order text)
     = check_text self order text.
Proof.
  unfold check_text_items, check_text. cbv zeta.
  apply (check_items_loop self order _ []). constructor.
Qed.

Lemma lstrip_nil_iff s : lstrip s = [] <-> forallb is_space s = true.
Proof.
  induction s as [|c s IH]; simpl; [tauto|].
  destruct (is_space c); simpl; [exact IH|]. split; discriminate.
Qed.

Lemma forallb_rev {A} (f : A -> bool) (l : list A) :
  forallb f (rev l) = forallb f l.
Proof.
  induction l as [|x l IH]; simpl; [reflexivity|].
  rewrite forallb_app, IH. simpl. rewrite andb_true_r. apply andb_comm.
Qed.

Lemma rev_nil_iff {A} (l : list A) : rev l = [] <-> l = [].
Proof.
  split; [|intros ->; reflexivity].
  intros H. apply (f_equal (@rev A)) in H. rewrite rev_involutive in H.
  exact H.
Qed.

Lemma strip_nil_iff s : strip s = [] <-> forallb is_space s = true.
Proof.
  unfold strip. rewrite rev_nil_iff, lstrip_nil_iff, forallb_rev. split.
  - intros Hall. apply lstrip_nil_iff.
    destruct (lstrip s) as [|c rest] eqn:E; [reflexivity|].
    pose proof (lstrip_head s c) as Hc. rewrite E in Hc.
    specialize (Hc eq_refl). simpl in Hall. rewrite Hc in Hall. discriminate.
  - intros H. apply lstrip_nil_iff in H. rewrite H. reflexivity.
Qed.

Lemma report_from_head items acc :
  exists tail, fold_left report_entry items acc = acc ++ tail.
Proof.
  revert acc. induction items as [|item items IH]; intros acc; simpl.
  - exists []. rewrite app_nil_r. reflexivity.
  - destruct (IH (report_entry acc item)) as [tail ->].
    unfold report_entry. cbv zeta.
    destruct (snd item); rewrite <- !app_assoc; eexists; reflexivity.
Qed.

Lemma items_nil_iff self order text :
  check_text_items self order text = [] <-> check_text self order text = ∅.
Proof.
  pose proof (check_items_loop self order (str_split (preprocess text)) []
                (NoDup_nil_2)) as [_ Hmap].
  change (list_to_map []) with (∅ : gmap (list char) (list (list char)))
    in Hmap.
  unfold check_text_items, check_text. cbv zeta. fold (preprocess text).
  rewrite <- Hmap. split.
  - intros ->. reflexivity.
  - destruct (fold_left _ _ _) as [|[k v] rest]; [reflexivity|].
    simpl. intros Habs. apply insert_non_empty in Habs. contradiction.
Qed.

(** X24. The three outcomes of [check_spelling] are told apart by its input:
    it asks for text exactly when the input is blank, and it announces that
    there are no errors exactly when the input is not blank and the mapping
    of [check_text] for the stripped input is empty; otherwise it writes a
    report, which is neither of the two messages that [update_result] tests
    for. *)
Theorem check_spelling_outcomes (self : ArabicSpellChecker)
    (order : list (list char)) (input : list char) :
  (check_spelling self order input = PLEASE_ENTER
   <-> forallb is_space input = true)
  /\ (check_spelling self order input = NO_ERRORS
      <-> forallb is_space input = false
          /\ check_text self order (strip input) = ∅).
Proof.
  unfold check_spelling. cbv zeta.
  destruct (strip input) as [|c text] eqn:Estrip.
  - apply strip_nil_iff in Estrip as Hblank. simpl. rewrite Hblank.
    split; [tauto|]. split; [discriminate | intros [? _]; discriminate].
  - assert (forallb is_space input = false) as Hblank.
    { destruct (forallb is_space input) eqn:E; [|reflexivity].
      apply strip_nil_iff in E. congruence. }
    rewrite Hblank. cbn [nonempty negb].
    destruct (check_text_items self order (c :: text)) as [|item items]
      eqn:Eitems.
    + apply items_nil_iff in Eitems.
      split; [split; discriminate | tauto].
    + assert (check_text self order (c :: text) <> ∅) as Hne.
      { intros Habs. apply items_nil_iff in Habs. congruence. }
      destruct (report_from_head (item :: items)
                  (ORIGINAL_TEXT ++ (c :: text) ++ MISSPELLED_HEADER))
        as [tail ->].
      split; split; try discriminate; intros [_ ?]; contradiction.
Qed.

(** ** Prefix and suffix runs *)

Lemma common_prefix_bounds s t :
  0 <= common_prefix s t <= Z.min (len s) (len t).
Proof.
  revert t. induction s as [|a s IH]; intros t; simpl.
  - pose proof (len_nonneg t). change (len []) with 0. lia.
  - destruct t as [|b t].
    + pose proof (len_nonneg (a :: s)). change (len []) with 0. lia.
    + rewrite !len_cons. pose proof (IH t). pose proof (len_nonneg s).
      pose proof (len_nonneg t). destruct (a =? b)%N; lia.
Qed.

Lemma common_prefix_sym s t : common_prefix s t = common_prefix t s.
Proof.
  revert t. induction s as [|a s IH]; intros [|b t]; simpl; try reflexivity.
  rewrite (N.eqb_sym b a), IH. reflexivity.
Qed.

(** X25. The prefix and suffix loops of [get_suggestions] count between 0 and
    the length of the shorter word, and give the same counts when the two
    words change places. *)
Theorem run_lengths (word dict_word : list char) :
  0 <= prefix_length word dict_word <= Z.min (len word) (len dict_word)
  /\ 0 <= suffix_length word dict_word <= Z.min (len word) (len dict_word)
  /\ prefix_length word dict_word = prefix_length dict_word word
  /\ suffix_length word dict_word = suffix_length dict_word word.
Proof.
  rewrite !prefix_length_closed, !suffix_length_closed.
  unfold prefix_run, suffix_run.
  pose proof (common_prefix_bounds word dict_word).
  pose proof (common_prefix_bounds (rev word) (rev dict_word)) as Hs.
  rewrite !len_rev in Hs.
  repeat split; try lia; apply common_prefix_sym.
Qed.
